(** * The particle field and the Bloch sphere icon of [script.js]

    A shallow embedding of the two numeric cores of [script.js]:
    class [TensorNetworkAnimation] (screened Coulomb particle field on the
    background canvas) and class [BlochSphereIcon] (state vector that follows
    the pointer).

    Numbers.  The program computes with IEEE doubles.  The embedding computes
    with the real numbers of the Standard Library: [+], [-], [*], [Math.sqrt],
    [Math.exp], [Math.sin], [Math.max] and [Math.min] are the exact real
    operations, so rounding, overflow and underflow are not modelled.  A
    division whose divisor is a numeric literal of the source (or a product of
    such literals) is the real division.  Any other division goes through
    [fdiv], which has no value when the divisor is zero: there the program
    produces [NaN] or an infinity, which are not real numbers, and carries on
    with it.  A function of the embedding returns [None] on the runs on which
    the program divides by zero, and follows the program no further.
    [Math.sqrt] is only ever applied to a sum of squares or to a quantity that
    was just tested to be non-negative.

    Rounding.  A double rounds every operation by a relative 1.2e-16, so an
    equation or a sharp bound that holds of the reals can fail of the
    program in the last place.  Module [Binary64] repeats the functions that
    need only [+], [-], [*], [/] and [Math.sqrt] over primitive floats, which
    evaluate as the program does, and the last section of the file
    evaluates them where the last place matters.  The theorems
    on lengths, speeds and inner products are therefore stated with a
    tolerance that is far above the rounding of the few operations involved
    and far below anything visible (1e-12, or 1e-6 for the round trip of the
    projection as the specification has it), and where a theorem assumes a
    vector of unit length it assumes it to within such a tolerance, since the
    vectors the program holds are unit vectors only in this sense.

    Effects.  Fields mutated in place become functional record updates;
    [Math.random()] becomes an explicit argument; drawing on the canvas
    becomes a list of drawing commands, in the order they are issued. *)

From Stdlib Require Import Reals Lra Psatz.
From Stdlib Require String Ascii PrimFloat.
From stdpp Require Import base option list.

#[local] Open Scope R_scope.

(** ** Numbers *)

(** [a / b] of the program for a divisor that is not a literal. *)
Definition fdiv (a b : R) : option R :=
  if Req_dec_T b 0 then None else Some (a / b).

(** ** The Bloch sphere icon *)

Module BlochSphereIcon.

(** The numeric fields of the object: the displayed vector and its target. *)
Record t : Type := mk {
  x : R; y : R; z : R;
  targetX : R; targetY : R; targetZ : R
}.

Definition set_target (s : t) (tx ty tz : R) : t :=
  mk (x s) (y s) (z s) tx ty tz.

Definition set_vector (s : t) (vx vy vz : R) : t :=
  mk vx vy vz (targetX s) (targetY s) (targetZ s).

(** The constructor: [this.x = 0.707; this.y = 0; this.z = 0.707] and the
    target equal to it. *)
Definition init : t := mk 0.707 0 0.707 0.707 0 0.707.

(** The projection constants [const a = 0.3, b = 0.9, c = 0.2]. *)
Definition a : R := 0.3.
Definition b : R := 0.9.
Definition c : R := 0.2.

(** Coefficients of the quadratic [A*y^2 + B*y + C = 0]. *)
Definition A : R := (a * a) / (b * b) + 1 + c * c.
Definition B (dx dy : R) : R := (-2) * a * dx / (b * b) - 2 * c * dy.
Definition C (dx dy : R) : R := (dx * dx) / (b * b) + dy * dy - 1.
Definition discriminant (dx dy : R) : R :=
  B dx dy * B dx dy - 4 * A * C dx dy.

(** [handleMouseMove] from the point where the normalised offset [(dx, dy)]
    of the pointer from the centre of the sphere is known. *)
Definition handleMouseMove_at (dx dy : R) (s : t) : option t :=
  if Rge_dec (discriminant dx dy) 0 then
    let sqrtD := sqrt (discriminant dx dy) in
    let y1 := (- B dx dy + sqrtD) / (2 * A) in
    let y2 := (- B dx dy - sqrtD) / (2 * A) in
    let tY := if Rge_dec y1 0 then y1
              else if Rge_dec y2 0 then y2 else Rmax y1 y2 in
    let tX := (dx - a * tY) / b in
    let tZ := - dy + c * tY in
    let len := sqrt (tX * tX + tY * tY + tZ * tZ) in
    if Rgt_dec len 0 then
      nX ← fdiv tX len; nY ← fdiv tY len; nZ ← fdiv tZ len;
      Some (set_target s nX nY nZ)
    else Some (set_target s tX tY tZ)
  else
    let len2D := sqrt (dx * dx + dy * dy) in
    if Rgt_dec len2D 0 then
      ndx ← fdiv dx len2D;
      ndy ← fdiv dy len2D;
      let tX := ndx / 0.9 in
      let tZ := - ndy in
      let tY := 0 in
      let len := sqrt (tX * tX + tZ * tZ) in
      if Rgt_dec len 0 then
        nX ← fdiv tX len; nZ ← fdiv tZ len;
        Some (set_target s nX tY nZ)
      else Some (set_target s tX tY tZ)
    else Some s.

(** The bounding rectangle of the container and the pointer event. *)
Record DOMRect : Type := { left : R; top : R; width : R; height : R }.
Record MouseEvent : Type := { clientX : R; clientY : R }.

(** The first half of [handleMouseMove]: the offset of the pointer from the
    centre of the sphere, in units of the radius of the sphere on screen. *)
Definition pointerOffset (rect : DOMRect) (e : MouseEvent) : option (R * R) :=
  let centerScreenX := left rect + width rect * 0.5 in
  let centerScreenY := top rect + height rect * 0.5 in
  let radiusScreenX := (22 / 96) * width rect in
  let radiusScreenY := (22 / 84) * height rect in
  let radiusScreen := Rmin radiusScreenX radiusScreenY in
  dx ← fdiv (clientX e - centerScreenX) radiusScreen;
  dy ← fdiv (clientY e - centerScreenY) radiusScreen;
  Some (dx, dy).

Definition handleMouseMove (rect : DOMRect) (e : MouseEvent) (s : t)
  : option t :=
  d ← pointerOffset rect e; handleMouseMove_at d.1 d.2 s.

(** [cartesianToScreen(x, y, z, radius = 22)]. *)
Definition cartesianToScreen (x y z radius : R) : R * R :=
  let x3d := x * radius in
  let y3d := y * radius in
  let z3d := z * radius in
  let screenX := 30 + x3d * 0.9 + y3d * 0.3 in
  let screenY := 30 - z3d + y3d * 0.2 in
  (screenX, screenY).

(** The offset from the centre [(30, 30)] of the drawing of the point that
    [cartesianToScreen] gives, in units of the radius. *)
Definition projectOffset (x y z : R) : R * R :=
  let pos := cartesianToScreen x y z 22 in
  ((pos.1 - 30) / 22, (pos.2 - 30) / 22).

(** One frame of [animate]: the new object and the position of the tip that
    is written to the line, the dot and the glow. *)
Definition animate (s : t) : option (t * (R * R)) :=
  let lerp := 0.08 in
  let x1 := x s + (targetX s - x s) * lerp in
  let y1 := y s + (targetY s - y s) * lerp in
  let z1 := z s + (targetZ s - z s) * lerp in
  let len := sqrt (x1 * x1 + y1 * y1 + z1 * z1) in
  s' ← (if Rgt_dec len 0 then
          nx ← fdiv x1 len; ny ← fdiv y1 len; nz ← fdiv z1 len;
          Some (set_vector s nx ny nz)
        else Some (set_vector s x1 y1 z1));
  Some (s', cartesianToScreen (x s') (y s') (z s') 22).

(** The root selection in the words of the specification: the first root if
    it is non-negative, else the second if it is non-negative, else the larger
    of the two. *)
Definition selectRoot_spec (y1 y2 : R) : R :=
  if Rle_dec 0 y1 then y1 else if Rle_dec 0 y2 then y2 else Rmax y1 y2.

Definition norm2 (vx vy vz : R) : R := vx * vx + vy * vy + vz * vz.

(** The inner product of the displayed vector and the target. *)
Definition alignment (s : t) : R :=
  x s * targetX s + y s * targetY s + z s * targetZ s.

(** [n] frames of [animate] in a row, with no pointer event in between:
    each [requestAnimationFrame] callback is the next call. *)
Fixpoint frames (n : nat) (s : t) : option t :=
  match n with
  | O => Some s
  | S n' => r ← animate s; frames n' r.1
  end.

End BlochSphereIcon.

(** ** The particle field *)

Module TensorNetworkAnimation.

(** [this.config.physics]. *)
Module physics.
Definition screeningLength : R := 100.
Definition coulombStrength : R := 200.
Definition damping : R := 1.0.
Definition maxVelocity : R := 10.0.
Definition softening : R := 20.
Definition brownianStrength : R := 0.1.
End physics.

(** [this.config], the part outside [physics] that drawing uses. *)
Module config.
Definition connectionDistance : R := 150.
Definition particleCount : nat := 150.
Definition particleRadius_min : R := 3.
Definition particleRadius_max : R := 4.
Definition particleSpeed : R := 0.5.
End config.

(** An element of [this.particles]. *)
Record Particle : Type := mkParticle {
  x : R; y : R; radius : R;
  vx : R; vy : R;
  isCyan : bool; charge : R;
  ax : R; ay : R;
  baseRadius : R; pulseOffset : R
}.

Definition set_acc (p : Particle) (ax' ay' : R) : Particle :=
  mkParticle (x p) (y p) (radius p) (vx p) (vy p) (isCyan p) (charge p)
             ax' ay' (baseRadius p) (pulseOffset p).

Definition set_vel (p : Particle) (vx' vy' : R) : Particle :=
  mkParticle (x p) (y p) (radius p) vx' vy' (isCyan p) (charge p)
             (ax p) (ay p) (baseRadius p) (pulseOffset p).

Definition set_pos (p : Particle) (x' y' : R) : Particle :=
  mkParticle x' y' (radius p) (vx p) (vy p) (isCyan p) (charge p)
             (ax p) (ay p) (baseRadius p) (pulseOffset p).

(** [this.mouse]: [x] and [y] are [null] while the pointer is away. *)
Record Mouse : Type := mkMouse {
  mouse_x : option R; mouse_y : option R; mouse_radius : R
}.

(** The numeric state of the object. *)
Record t : Type := mk {
  particles : list Particle;
  mouse : Mouse;
  canvas_width : R;
  canvas_height : R
}.

Definition set_particles (s : t) (ps : list Particle) : t :=
  mk ps (mouse s) (canvas_width s) (canvas_height s).

(** The listeners of [bindEvents] for [mousemove] and [mouseout]. *)
Definition onMouseMove (clientX clientY : R) (s : t) : t :=
  mk (particles s) (mkMouse (Some clientX) (Some clientY) (mouse_radius (mouse s)))
     (canvas_width s) (canvas_height s).

Definition onMouseOut (s : t) : t :=
  mk (particles s) (mkMouse None None (mouse_radius (mouse s)))
     (canvas_width s) (canvas_height s).

(** What is drawn on the canvas. A colour prefix of [config.colors] together
    with an opacity stands for the string [color + opacity + ')']. *)
Inductive Color : Type := cyan | purple.

Inductive DrawCmd : Type :=
  | ClearRect (w h : R)
  | Line (x1 y1 x2 y2 : R) (color : Color) (opacity : R)
  | Glow (cx cy r : R) (color : Color) (opacity : R)
  | Core (cx cy r : R) (color : Color) (opacity : R).

(** A loop whose body may produce a non-finite number. *)
Fixpoint forM {I S : Type} (body : I -> S -> option S) (l : list I) (s : S)
  : option S :=
  match l with
  | [] => Some s
  | i :: l' => s' ← body i s; forM body l' s'
  end.

(** *** [calculateForces] *)

(** The body of the inner loop for the objects [p1 = particles[i]] and
    [p2 = particles[j]]; [continue] leaves both as they are. *)
Definition pairForce (p1 p2 : Particle) : option (Particle * Particle) :=
  let dx := x p2 - x p1 in
  let dy := y p2 - y p1 in
  let distSq := dx * dx + dy * dy in
  let dist := sqrt distSq in
  if Rgt_dec dist (physics.screeningLength * 2) then Some (p1, p2)
  else
    let r := dist + physics.softening in
    let screening := exp (- dist / physics.screeningLength) in
    q ← fdiv (physics.coulombStrength * charge p1 * charge p2) (r * r);
    let forceMag := q * screening in
    ux ← fdiv dx dist;
    let fx := ux * forceMag in
    uy ← fdiv dy dist;
    let fy := uy * forceMag in
    Some (set_acc p1 (ax p1 - fx) (ay p1 - fy),
          set_acc p2 (ax p2 + fx) (ay p2 + fy)).

(** One iteration of the inner loop on the array. The loops only produce
    indices below the length. *)
Definition forceStep (i j : nat) (ps : list Particle)
  : option (list Particle) :=
  p1 ← ps !! i;
  p2 ← ps !! j;
  pp ← pairForce p1 p2;
  Some (<[j := pp.2]> (<[i := pp.1]> ps)).

Definition resetAcc (p : Particle) : Particle := set_acc p 0 0.

(** The inner loop [for (let j = i + 1; j < n; j++)]. *)
Definition inner (n i : nat) : list Particle -> option (list Particle) :=
  forM (fun j => forceStep i j) (seq (S i) (n - S i)).

Definition calculateForces (ps : list Particle) : option (list Particle) :=
  let ps0 := resetAcc <$> ps in
  let n := length ps0 in
  forM (inner n) (seq 0 n) ps0.

(** *** [drawConnections] *)

Definition connection (p q : Particle) : list DrawCmd :=
  let dx := x p - x q in
  let dy := y p - y q in
  let distance := sqrt (dx * dx + dy * dy) in
  if Rlt_dec distance config.connectionDistance then
    let opacity := (1 - distance / config.connectionDistance) * 0.3 in
    let chargeProduct := charge p * charge q in
    let lineColor := if Rlt_dec chargeProduct 0 then cyan else purple in
    [Line (x p) (y p) (x q) (y q) lineColor opacity]
  else [].

Definition drawConnections (ps : list Particle) : list DrawCmd :=
  let n := length ps in
  flat_map (fun i =>
    flat_map (fun j =>
      match ps !! i, ps !! j with
      | Some p, Some q => connection p q
      | _, _ => []
      end) (seq (S i) (n - S i))) (seq 0 n).

(** *** [drawParticle] *)

Definition drawParticle (p : Particle) (time : R) : list DrawCmd :=
  let pulse := sin (time * 0.002 + pulseOffset p) * 0.3 + 0.7 in
  let radius := baseRadius p * pulse in
  let color := if isCyan p then cyan else purple in
  let opacity := 0.6 + pulse * 0.2 in
  [Glow (x p) (y p) (radius * 3) color (opacity * 0.5);
   Core (x p) (y p) radius color opacity].

(** *** [updateParticle], block by block *)

(** Mouse interaction - attraction. *)
Definition mouseAttraction (m : Mouse) (p : Particle) : option Particle :=
  match mouse_x m, mouse_y m with
  | Some mx, Some my =>
      let dx := x p - mx in
      let dy := y p - my in
      let distance := sqrt (dx * dx + dy * dy) in
      if Rlt_dec distance (mouse_radius m) then
        if Rgt_dec distance 0 then
          q ← fdiv (mouse_radius m - distance) (mouse_radius m);
          let force := q * 0.5 in
          ux ← fdiv dx distance;
          uy ← fdiv dy distance;
          Some (set_acc p (ax p - ux * force) (ay p - uy * force))
        else Some p
      else Some p
  | _, _ => Some p
  end.

(** Apply acceleration to velocity, add Brownian noise, apply damping;
    [u1] and [u2] are the two values of [Math.random()]. *)
Definition accelerate (u1 u2 : R) (p : Particle) : Particle :=
  let vx1 := vx p + ax p in
  let vy1 := vy p + ay p in
  let vx2 := vx1 + (u1 - 0.5) * physics.brownianStrength in
  let vy2 := vy1 + (u2 - 0.5) * physics.brownianStrength in
  set_vel p (vx2 * physics.damping) (vy2 * physics.damping).

(** [Math.sqrt(particle.vx * particle.vx + particle.vy * particle.vy)]. *)
Definition speed (p : Particle) : R := sqrt (vx p * vx p + vy p * vy p).

(** Clamp to max velocity. *)
Definition clampVelocity (p : Particle) : option Particle :=
  if Rgt_dec (speed p) physics.maxVelocity then
    ux ← fdiv (vx p) (speed p);
    uy ← fdiv (vy p) (speed p);
    Some (set_vel p (ux * physics.maxVelocity) (uy * physics.maxVelocity))
  else Some p.

(** Move particle. *)
Definition move (p : Particle) : Particle :=
  set_pos p (x p + vx p) (y p + vy p).

(** Bounce off walls (reverse velocity). *)
Definition bounceX (width : R) (p : Particle) : Particle :=
  if Rlt_dec (x p) (radius p) then
    set_vel (set_pos p (radius p) (y p)) (vx p * -0.9) (vy p)
  else if Rgt_dec (x p) (width - radius p) then
    set_vel (set_pos p (width - radius p) (y p)) (vx p * -0.9) (vy p)
  else p.

Definition bounceY (height : R) (p : Particle) : Particle :=
  if Rlt_dec (y p) (radius p) then
    set_vel (set_pos p (x p) (radius p)) (vx p) (vy p * -0.9)
  else if Rgt_dec (y p) (height - radius p) then
    set_vel (set_pos p (x p) (height - radius p)) (vx p) (vy p * -0.9)
  else p.

Definition bounce (width height : R) (p : Particle) : Particle :=
  bounceY height (bounceX width p).

(** The function up to and including the move. *)
Definition advance (m : Mouse) (u1 u2 : R) (p : Particle) : option Particle :=
  p1 ← mouseAttraction m p;
  p2 ← clampVelocity (accelerate u1 u2 p1);
  Some (move p2).

Definition updateParticle (width height : R) (m : Mouse) (u1 u2 : R)
    (p : Particle) : option Particle :=
  q ← advance m u1 u2 p;
  Some (bounce width height q).

(** *** [animate] *)

(** The loop [for (const particle of this.particles)]: every particle is
    updated and then drawn; [noise k] holds the two values of
    [Math.random()] used for the particle at index [k]. *)
Fixpoint updateAndDraw (width height : R) (m : Mouse) (time : R)
    (noise : nat -> R * R) (k : nat) (ps : list Particle)
  : option (list Particle * list DrawCmd) :=
  match ps with
  | [] => Some ([], [])
  | p :: rest =>
      p' ← updateParticle width height m (noise k).1 (noise k).2 p;
      r ← updateAndDraw width height m time noise (S k) rest;
      Some (p' :: r.1, drawParticle p' time ++ r.2)
  end.

(** One frame: [time] is [performance.now()]. The result is the object
    after the frame and what the frame drew, in order. *)
Definition animate (time : R) (noise : nat -> R * R) (s : t)
  : option (t * list DrawCmd) :=
  let cleared := [ClearRect (canvas_width s) (canvas_height s)] in
  let lines := drawConnections (particles s) in
  ps1 ← calculateForces (particles s);
  r ← updateAndDraw (canvas_width s) (canvas_height s) (mouse s) time noise
        0%nat ps1;
  Some (set_particles s r.1, cleared ++ lines ++ r.2).

(** The position of a particle. *)
Definition pos (p : Particle) : R * R := (x p, y p).

(** No two particles at the same place. *)
Definition apart (ps : list Particle) : Prop :=
  forall i j p q, (i < j)%nat -> ps !! i = Some p -> ps !! j = Some q ->
    ~ (x p = x q /\ y p = y q).

(** What [drawParticle] draws for every particle of an array. *)
Definition glyphs (time : R) (ps : list Particle) : list DrawCmd :=
  flat_map (fun p => drawParticle p time) ps.

(** Sample data: two cyan particles 100 pixels apart, the first one moving
    to the right, and a canvas with the pointer away. *)
Definition sampleA : Particle := mkParticle 100 100 3 1 0 true 1 0 0 3 0.
Definition sampleB : Particle := mkParticle 200 100 3 0 0 true 1 0 0 3 0.
Definition sampleMouse : Mouse := mkMouse (Some 0) (Some 0) 150.
Definition sampleNear : Particle := mkParticle 3 4 3 0 0 true 1 0 0 3 0.
(** A particle about to cross the left wall. *)
Definition sampleLeft : Particle := mkParticle 4 100 3 (-5) 0 true 1 0 0 3 0.
(** A purple particle at the place of [sampleA]. *)
Definition sampleC : Particle := mkParticle 100 100 3.5 0 0 false (-1) 0 0 3.5 0.
Definition sampleState : t :=
  mk [sampleA; sampleB] (mkMouse None None 150) 800 600.

(** *** [createParticles], [resize] and the constructor *)

(** The body of the loop of [createParticles] for index [i]; [rand k] is the
    value of the call number [k] of [Math.random()] since the function
    began, and every particle takes seven of them, in this order: radius,
    x, y, vx, vy, colour, pulse offset. *)
Definition createParticle (width height : R) (rand : nat -> R) (i : nat)
  : Particle :=
  let k := (7 * i)%nat in
  let radius := rand k * (config.particleRadius_max - config.particleRadius_min)
                + config.particleRadius_min in
  let x := rand (k + 1)%nat * (width - radius * 2) + radius in
  let y := rand (k + 2)%nat * (height - radius * 2) + radius in
  let vx := (rand (k + 3)%nat - 0.5) * config.particleSpeed in
  let vy := (rand (k + 4)%nat - 0.5) * config.particleSpeed in
  let isCyan := if Rgt_dec (rand (k + 5)%nat) 0.5 then true else false in
  let charge := if isCyan then 1 else -1 in
  mkParticle x y radius vx vy isCyan charge 0 0 radius
             (rand (k + 6)%nat * PI * 2).

Definition createParticles (width height : R) (rand : nat -> R)
  : list Particle :=
  createParticle width height rand <$> seq 0 config.particleCount.

(** The listener of [bindEvents] for [resize]: [this.resize()] and then
    [this.createParticles()]. *)
Definition onResize (innerWidth innerHeight : R) (rand : nat -> R) (s : t) : t :=
  mk (createParticles innerWidth innerHeight rand) (mouse s)
     innerWidth innerHeight.

(** The object as [init] has it before the first frame. *)
Definition construct (innerWidth innerHeight : R) (rand : nat -> R) : t :=
  mk (createParticles innerWidth innerHeight rand) (mkMouse None None 150)
     innerWidth innerHeight.

(** A run of frames: every frame has its time and its random values, and
    what is drawn is dropped. *)
Definition frame (f : R * (nat -> R * R)) (s : t) : option t :=
  r ← animate f.1 f.2 s; Some r.1.

Definition run (fs : list (R * (nat -> R * R))) (s : t) : option t :=
  forM frame fs s.

(** The fields of a particle that no frame changes. *)
Definition identity_of (p : Particle) : R * bool * R * R * R :=
  (radius p, isCyan p, charge p, baseRadius p, pulseOffset p).

(** What holds for a particle of a canvas of the given size after any
    frame: a speed bounded by [maxVelocity] (to within rounding, a relative
    1e-12), and a position inside the walls where the canvas is wide enough
    for it. *)
Definition settled (width height : R) (p : Particle) : Prop :=
  speed p <= physics.maxVelocity * (1 + 1e-12) /\
  (2 * radius p <= width -> radius p <= x p <= width - radius p) /\
  (2 * radius p <= height -> radius p <= y p <= height - radius p).

(** What [createParticles] gives every particle when [Math.random()] is in
    [0, 1): the radius is in [3, 4] (the product with the last value below
    1 can round to 4), and the position is between the left or upper wall
    and the opposite wall (to within rounding, a relative 1e-12) where the
    canvas is wide enough. *)
Definition fresh (width height : R) (p : Particle) : Prop :=
  3 <= radius p <= 4 /\ baseRadius p = radius p /\
  ax p = 0 /\ ay p = 0 /\
  - 0.25 <= vx p < 0.25 /\ - 0.25 <= vy p < 0.25 /\
  (isCyan p = true /\ charge p = 1 \/ isCyan p = false /\ charge p = -1) /\
  0 <= pulseOffset p < 2 * PI /\
  (2 * radius p <= width ->
   radius p <= x p <= (width - radius p) * (1 + 1e-12)) /\
  (2 * radius p <= height ->
   radius p <= y p <= (height - radius p) * (1 + 1e-12)).

(** A particle 400 pixels to the right of [sampleA]. *)
Definition sampleFar : Particle := mkParticle 500 100 3 0 0 false (-1) 0 0 3 0.

(** The distance between two particles. *)
Definition distance (p q : Particle) : R :=
  sqrt ((x p - x q) * (x p - x q) + (y p - y q) * (y p - y q)).

End TensorNetworkAnimation.

(** ** The mobile navigation *)

Module MobileNav.

(** Whether the class [active] is in the [classList] of the link list and
    of the toggle button. *)
Record t : Type := mk { navLinks_active : bool; toggle_active : bool }.

(** The two listeners that [initMobileNav] installs. *)
Inductive Click : Type :=
  | ClickToggle
  | ClickLink.

Definition click (c : Click) (s : t) : t :=
  match c with
  | ClickToggle => mk (negb (navLinks_active s)) (negb (toggle_active s))
  | ClickLink => mk false false
  end.

Definition clicks (cs : list Click) (s : t) : t :=
  foldl (fun s c => click c s) s cs.

End MobileNav.

(** ** The author line of a publication *)

(** Strings are strings of bytes, and the string methods of the program that
    [highlightAuthor] calls are written out for them: [split] with a
    one-character separator, [trim] and [toLowerCase] as they act on ASCII
    text (the white space of ASCII, the letters A to Z), [includes] and
    [join]. On text outside ASCII the program's [trim] and [toLowerCase] do
    more than these, so what is proved holds for ASCII author lines. *)
Module Publications.
Import String Ascii.
#[local] Open Scope string_scope.

(** [s.split(sep)]: the pieces between the separators, at least one. *)
Fixpoint split (sep : ascii) (s : string) : list string :=
  match s with
  | EmptyString => [EmptyString]
  | String ch s' =>
      if Ascii.eqb ch sep then EmptyString :: split sep s'
      else match split sep s' with
           | piece :: pieces => String ch piece :: pieces
           | [] => [String ch EmptyString]
           end
  end.

(** Tab, line feed, vertical tab, form feed, carriage return and space. *)
Definition isSpace (ch : ascii) : bool :=
  let n := nat_of_ascii ch in
  (Nat.leb 9 n && Nat.leb n 13) || Nat.eqb n 32.

Fixpoint trimStart (s : string) : string :=
  match s with
  | EmptyString => EmptyString
  | String ch s' => if isSpace ch then trimStart s' else s
  end.

Fixpoint trimEnd (s : string) : string :=
  match s with
  | EmptyString => EmptyString
  | String ch s' =>
      match trimEnd s' with
      | EmptyString => if isSpace ch then EmptyString
                       else String ch EmptyString
      | rest => String ch rest
      end
  end.

(** [s.trim()]. *)
Definition trim (s : string) : string := trimEnd (trimStart s).

Definition lower (ch : ascii) : ascii :=
  let n := nat_of_ascii ch in
  if Nat.leb 65 n && Nat.leb n 90 then ascii_of_nat (n + 32) else ch.

(** [s.toLowerCase()]. *)
Fixpoint toLowerCase (s : string) : string :=
  match s with
  | EmptyString => EmptyString
  | String ch s' => String (lower ch) (toLowerCase s')
  end.

(** [s.includes(needle)]. *)
Fixpoint includes (needle s : string) : bool :=
  if prefix needle s then true
  else match s with
       | EmptyString => false
       | String _ s' => includes needle s'
       end.

(** The double quote. *)
Definition dq : string := String "034"%char EmptyString.

(** The template literal of [highlightAuthor]. *)
Definition authorSelf (trimmed : string) : string :=
  "<span class=" ++ dq ++ "author-self" ++ dq ++ ">" ++ trimmed ++ "</span>".

(** The function given to [map]. *)
Definition markAuthor (author : string) : string :=
  let trimmed := trim author in
  if includes "gibbs" (toLowerCase trimmed) then authorSelf trimmed
  else trimmed.

Definition highlightAuthor (authorsString : string) : string :=
  concat ", " (markAuthor <$> split "," authorsString).

(** No comma in a name. *)
Fixpoint commaFree (s : string) : bool :=
  match s with
  | EmptyString => true
  | String ch s' => negb (Ascii.eqb ch ",") && commaFree s'
  end.

End Publications.

(** ** The program in binary64 *)

(** The functions of the program that use nothing but [+], [-], [*], [/],
    [Math.sqrt] and comparisons, written once more over primitive floats:
    these are the IEEE 754 binary64 numbers with rounding to nearest, as the
    numbers of the program, so a closed term evaluates to what the program
    computes, digit for digit. They serve to show where rounding separates
    the program from exact arithmetic. *)
Module Binary64.
Import PrimFloat.
#[local] Open Scope float_scope.
#[local] Set Warnings "-inexact-float".

(** [a > b]. *)
Definition gtb (a b : float) : bool := ltb b a.

Record Particle : Type := mkParticle {
  x : float; y : float; radius : float;
  vx : float; vy : float;
  isCyan : bool; charge : float;
  ax : float; ay : float;
  baseRadius : float; pulseOffset : float
}.

Record Mouse : Type := mkMouse {
  mouse_x : option float; mouse_y : option float; mouse_radius : float
}.

Definition maxVelocity : float := 10.0.
Definition damping : float := 1.0.
Definition brownianStrength : float := 0.1.

(** [updateParticle], statement by statement; [u1] and [u2] are the two
    values of [Math.random()]. *)
Definition updateParticle (width height : float) (m : Mouse) (u1 u2 : float)
    (p : Particle) : Particle :=
  let '(ax1, ay1) :=
    match mouse_x m, mouse_y m with
    | Some mx, Some my =>
        let dx := x p - mx in
        let dy := y p - my in
        let distance := sqrt (dx * dx + dy * dy) in
        if ltb distance (mouse_radius m) && gtb distance 0 then
          let force := (mouse_radius m - distance) / mouse_radius m * 0.5 in
          (ax p - (dx / distance) * force, ay p - (dy / distance) * force)
        else (ax p, ay p)
    | _, _ => (ax p, ay p)
    end in
  let vx1 := vx p + ax1 in
  let vy1 := vy p + ay1 in
  let vx2 := vx1 + (u1 - 0.5) * brownianStrength in
  let vy2 := vy1 + (u2 - 0.5) * brownianStrength in
  let vx3 := vx2 * damping in
  let vy3 := vy2 * damping in
  let speed := sqrt (vx3 * vx3 + vy3 * vy3) in
  let '(vx4, vy4) :=
    if gtb speed maxVelocity
    then ((vx3 / speed) * maxVelocity, (vy3 / speed) * maxVelocity)
    else (vx3, vy3) in
  let x1 := x p + vx4 in
  let y1 := y p + vy4 in
  let '(x2, vx5) :=
    if ltb x1 (radius p) then (radius p, vx4 * -0.9)
    else if gtb x1 (width - radius p) then (width - radius p, vx4 * -0.9)
    else (x1, vx4) in
  let '(y2, vy5) :=
    if ltb y1 (radius p) then (radius p, vy4 * -0.9)
    else if gtb y1 (height - radius p) then (height - radius p, vy4 * -0.9)
    else (y1, vy4) in
  mkParticle x2 y2 (radius p) vx5 vy5 (isCyan p) (charge p) ax1 ay1
             (baseRadius p) (pulseOffset p).

(** The radius that [createParticles] gives for the value [u] of
    [Math.random()], and the pulse and the opacity of [drawParticle] for the
    value [sine] of [Math.sin]. *)
Definition createRadius (u : float) : float := u * (4 - 3) + 3.
Definition pulse (sine : float) : float := sine * 0.3 + 0.7.
Definition opacity (sine : float) : float := 0.6 + pulse sine * 0.2.

(** [Math.sqrt(vx * vx + vy * vy)] as the program computes it. *)
Definition speed (p : Particle) : float := sqrt (vx p * vx p + vy p * vy p).

(** The vector and the target of the Bloch sphere icon. *)
Record Sphere : Type := mkSphere {
  sx : float; sy : float; sz : float;
  targetX : float; targetY : float; targetZ : float
}.

(** The numeric part of [BlochSphereIcon.animate]. *)
Definition animate (s : Sphere) : Sphere :=
  let lerp := 0.08 in
  let x1 := sx s + (targetX s - sx s) * lerp in
  let y1 := sy s + (targetY s - sy s) * lerp in
  let z1 := sz s + (targetZ s - sz s) * lerp in
  let len := sqrt (x1 * x1 + y1 * y1 + z1 * z1) in
  if gtb len 0 then
    mkSphere (x1 / len) (y1 / len) (z1 / len)
             (targetX s) (targetY s) (targetZ s)
  else mkSphere x1 y1 z1 (targetX s) (targetY s) (targetZ s).

(** [x * x + y * y + z * z] as the program computes it. *)
Definition norm2 (s : Sphere) : float := sx s * sx s + sy s * sy s + sz s * sz s.

Definition set_target (s : Sphere) (tx ty tz : float) : Sphere :=
  mkSphere (sx s) (sy s) (sz s) tx ty tz.

(** [a >= b] and [Math.max(a, b)]. *)
Definition geb (a b : float) : bool := leb b a.
Definition max (a b : float) : float :=
  if (is_nan a || is_nan b)%bool then nan else if ltb a b then b else a.

(** [B*B - 4*A*C] as [handleMouseMove] computes it from the offset. *)
Definition discriminant (dx dy : float) : float :=
  let a := 0.3 in let b := 0.9 in let c := 0.2 in
  let A := (a * a) / (b * b) + 1 + c * c in
  let B := (-2) * a * dx / (b * b) - 2 * c * dy in
  let C := (dx * dx) / (b * b) + dy * dy - 1 in
  B * B - 4 * A * C.

(** [handleMouseMove] from the point where the offset is known. *)
Definition handleMouseMove_at (dx dy : float) (s : Sphere) : Sphere :=
  let a := 0.3 in let b := 0.9 in let c := 0.2 in
  let A := (a * a) / (b * b) + 1 + c * c in
  let B := (-2) * a * dx / (b * b) - 2 * c * dy in
  let C := (dx * dx) / (b * b) + dy * dy - 1 in
  let discriminant := B * B - 4 * A * C in
  if geb discriminant 0 then
    let sqrtD := sqrt discriminant in
    let y1 := (- B + sqrtD) / (2 * A) in
    let y2 := (- B - sqrtD) / (2 * A) in
    let tY := if geb y1 0 then y1 else if geb y2 0 then y2 else max y1 y2 in
    let tX := (dx - a * tY) / b in
    let tZ := - dy + c * tY in
    let len := sqrt (tX * tX + tY * tY + tZ * tZ) in
    if gtb len 0 then set_target s (tX / len) (tY / len) (tZ / len)
    else set_target s tX tY tZ
  else
    let len2D := sqrt (dx * dx + dy * dy) in
    if gtb len2D 0 then
      let ndx := dx / len2D in
      let ndy := dy / len2D in
      let tX := ndx / 0.9 in
      let tZ := - ndy in
      let tY := 0 in
      let len := sqrt (tX * tX + tZ * tZ) in
      if gtb len 0 then set_target s (tX / len) tY (tZ / len)
      else set_target s tX tY tZ
    else s.

(** The projection in units of the radius, [dx = x*0.9 + y*0.3] and
    [dy = -z + y*0.2], as the comment of [handleMouseMove] states it. *)
Definition offsetOf (vx vy vz : float) : float * float :=
  (vx * 0.9 + vy * 0.3, - vz + vy * 0.2).

(** [y - x/3 + 0.2*z]: the component along the direction of projection. *)
Definition facing (vx vy vz : float) : float := vy - vx / 3 + 0.2 * vz.

(** The constructor. *)
Definition init : Sphere := mkSphere 0.707 0 0.707 0.707 0 0.707.

(** A particle away from the walls with velocity [(2, 10)] and no
    acceleration, and the icon pointing along x with its target along z. *)
Definition fastParticle : Particle :=
  mkParticle 100 100 3 2 10 true 1 0 0 3 0.
Definition noMouse : Mouse := mkMouse None None 150.
Definition quarterTurn : Sphere := mkSphere 1 0 0 0 0 1.

End Binary64.

(** * Properties *)

(** ** Numbers *)

Lemma fdiv_Some (a b : R) : b <> 0 -> fdiv a b = Some (a / b).
Proof. intros Hb. unfold fdiv. destruct (Req_dec_T b 0); [contradiction | reflexivity]. Qed.

Lemma fdiv_zero (a : R) : fdiv a 0 = None.
Proof. unfold fdiv. destruct (Req_dec_T 0 0); [reflexivity | contradiction]. Qed.

Lemma sqrt_sum2_zero (a b : R) : sqrt (a * a + b * b) = 0 -> a = 0 /\ b = 0.
Proof.
  intros H. apply sqrt_eq_0 in H; [| nra]. split; nra.
Qed.

Lemma Rabs_le_inv (a b : R) : Rabs a <= b -> - b <= a <= b.
Proof. unfold Rabs. destruct (Rcase_abs a); lra. Qed.

Lemma sqrt_sqr_nonneg (a : R) : 0 <= a -> sqrt (a * a) = a.
Proof. intros H. apply sqrt_square. exact H. Qed.

Lemma sqrt_norm_sqr (n : R) : 0 <= n -> sqrt n * sqrt n = n.
Proof. intros H. apply sqrt_sqrt. exact H. Qed.

(** Dividing a non-zero vector by its length gives a vector of length one. *)
Lemma normalize3_unit (u v w : R) :
  0 < u * u + v * v + w * w ->
  let len := sqrt (u * u + v * v + w * w) in
  0 < len /\
  (u / len) * (u / len) + (v / len) * (v / len) + (w / len) * (w / len) = 1.
Proof.
  intros Hpos len.
  assert (Hlen : 0 < len) by (apply sqrt_lt_R0; exact Hpos).
  split; [exact Hlen |].
  assert (Hsq : len * len = u * u + v * v + w * w)
    by (apply sqrt_norm_sqr; lra).
  assert (Hne : len <> 0) by lra.
  replace (u / len * (u / len) + v / len * (v / len) + w / len * (w / len))
    with ((u * u + v * v + w * w) / (len * len)) by (field; exact Hne).
  rewrite <- Hsq. field. exact Hne.
Qed.

(** ** The Bloch sphere icon *)

Section BlochSphereIconProofs.
Import BlochSphereIcon.

Lemma A_value : A = 259 / 225.
Proof. unfold A, a, b, c. lra. Qed.

Lemma B_value (dx dy : R) : B dx dy = - (20 / 27) * dx - (2 / 5) * dy.
Proof. unfold B, a, b, c. lra. Qed.

Lemma C_value (dx dy : R) : C dx dy = (100 / 81) * (dx * dx) + dy * dy - 1.
Proof. unfold C, b. lra. Qed.

Lemma projectOffset_eq (vx vy vz : R) :
  projectOffset vx vy vz = (vx * 0.9 + vy * 0.3, - vz + vy * 0.2).
Proof. unfold projectOffset, cartesianToScreen. simpl. f_equal; lra. Qed.

(** The quadratic is what the unit sphere becomes once [x] and [z] are
    replaced by their expressions in [y]. *)
Lemma quadratic_is_substitution (dx dy yy : R) :
  norm2 ((dx - a * yy) / b) yy (- dy + c * yy) - 1
  = A * (yy * yy) + B dx dy * yy + C dx dy.
Proof. unfold norm2, A, B, C, a, b, c. field. lra. Qed.

(** Both candidates are roots of the quadratic. *)
Lemma root_of_quadratic (dx dy s yy : R) :
  s * s = discriminant dx dy ->
  yy = (- B dx dy + s) / (2 * A) \/ yy = (- B dx dy - s) / (2 * A) ->
  A * (yy * yy) + B dx dy * yy + C dx dy = 0.
Proof.
  intros Hs Hy. unfold discriminant in Hs.
  rewrite A_value in *.
  set (bb := B dx dy) in *. set (cc := C dx dy) in *.
  destruct Hy as [-> | ->].
  - replace (259 / 225 * ((- bb + s) / (2 * (259 / 225)) * ((- bb + s) / (2 * (259 / 225))))
             + bb * ((- bb + s) / (2 * (259 / 225))) + cc)
      with ((s * s - (bb * bb - 4 * (259 / 225) * cc)) * (225 / 1036)) by field.
    rewrite Hs. lra.
  - replace (259 / 225 * ((- bb - s) / (2 * (259 / 225)) * ((- bb - s) / (2 * (259 / 225))))
             + bb * ((- bb - s) / (2 * (259 / 225))) + cc)
      with ((s * s - (bb * bb - 4 * (259 / 225) * cc)) * (225 / 1036)) by field.
    rewrite Hs. lra.
Qed.

(** The choice made by the conditional expression is one of the two
    candidates. *)
Lemma selected_is_candidate (y1 y2 : R) :
  let tY := if Rge_dec y1 0 then y1
            else if Rge_dec y2 0 then y2 else Rmax y1 y2 in
  tY = y1 \/ tY = y2.
Proof.
  simpl. destruct (Rge_dec y1 0); [left; reflexivity |].
  destruct (Rge_dec y2 0); [right; reflexivity |].
  unfold Rmax. destruct (Rle_dec y1 y2); [right | left]; reflexivity.
Qed.

(** Since the first candidate is never below the second, the choice is
    always the first candidate. *)
Lemma selected_is_first (y1 y2 : R) :
  y2 <= y1 ->
  (if Rge_dec y1 0 then y1
   else if Rge_dec y2 0 then y2 else Rmax y1 y2) = y1.
Proof.
  intros Hle. destruct (Rge_dec y1 0); [reflexivity |].
  destruct (Rge_dec y2 0); [lra |].
  apply Rmax_left. exact Hle.
Qed.

Lemma selected_matches_spec (y1 y2 : R) :
  (if Rge_dec y1 0 then y1
   else if Rge_dec y2 0 then y2 else Rmax y1 y2) = selectRoot_spec y1 y2.
Proof.
  unfold selectRoot_spec.
  destruct (Rge_dec y1 0), (Rle_dec 0 y1); try lra; try reflexivity.
  destruct (Rge_dec y2 0), (Rle_dec 0 y2); try lra; reflexivity.
Qed.

Lemma A_pos : 0 < 2 * A.
Proof. rewrite A_value. lra. Qed.

Lemma candidates_ordered (dx dy : R) :
  (- B dx dy - sqrt (discriminant dx dy)) / (2 * A)
  <= (- B dx dy + sqrt (discriminant dx dy)) / (2 * A).
Proof.
  pose proof (sqrt_pos (discriminant dx dy)) as Hs.
  pose proof A_pos as HA.
  apply Rmult_le_compat_r; [| lra].
  apply Rlt_le, Rinv_0_lt_compat, HA.
Qed.

(** The vector built from a root of the quadratic is on the unit sphere. *)
Lemma root_on_sphere (dx dy s yy : R) :
  s * s = discriminant dx dy ->
  yy = (- B dx dy + s) / (2 * A) \/ yy = (- B dx dy - s) / (2 * A) ->
  norm2 ((dx - a * yy) / b) yy (- dy + c * yy) = 1.
Proof.
  intros Hs Hy.
  pose proof (quadratic_is_substitution dx dy yy) as Hq.
  rewrite (root_of_quadratic dx dy s yy Hs Hy) in Hq. lra.
Qed.

(** What the branch for a non-negative discriminant computes: the first
    candidate, back-substituted; the division by the length is a division by
    one. *)
Lemma handleMouseMove_at_inside (dx dy : R) (s : t) :
  discriminant dx dy >= 0 ->
  let y1 := (- B dx dy + sqrt (discriminant dx dy)) / (2 * A) in
  handleMouseMove_at dx dy s
  = Some (set_target s ((dx - a * y1) / b) y1 (- dy + c * y1)).
Proof.
  intros HD y1. unfold handleMouseMove_at.
  destruct (Rge_dec (discriminant dx dy) 0) as [_ | Hn]; [| contradiction].
  cbv zeta.
  rewrite (selected_is_first _ _ (candidates_ordered dx dy)).
  fold y1.
  assert (Hunit : norm2 ((dx - a * y1) / b) y1 (- dy + c * y1) = 1).
  { apply (root_on_sphere dx dy (sqrt (discriminant dx dy))).
    - apply sqrt_norm_sqr. lra.
    - left. reflexivity. }
  unfold norm2 in Hunit. rewrite Hunit, sqrt_1.
  destruct (Rgt_dec 1 0) as [_ | Hn]; [| lra].
  rewrite !fdiv_Some by lra. simpl.
  unfold set_target. do 2 f_equal; lra.
Qed.

(** The discriminant at the projection of a unit vector is a square: that of
    twice the component of the vector along the direction of projection. *)
Lemma discriminant_of_projection (vx vy vz : R) :
  norm2 vx vy vz = 1 ->
  let d := projectOffset vx vy vz in
  let w := vy - vx / 3 + 0.2 * vz in
  discriminant d.1 d.2 = (2 * w) * (2 * w).
Proof.
  intros Hn d w. subst d w. rewrite projectOffset_eq. simpl.
  unfold discriminant. rewrite A_value, B_value, C_value.
  unfold norm2 in Hn.
  nra.
Qed.

(** The round trip for any unit vector: the inverse projection returns the
    vector itself when its component [w] along the direction of projection is
    non-negative, and otherwise the other point of the sphere with the same
    projection. *)
Lemma inverse_of_projection (vx vy vz : R) (s : t) :
  norm2 vx vy vz = 1 ->
  let d := projectOffset vx vy vz in
  let w := vy - vx / 3 + 0.2 * vz in
  let k := (Rabs w - w) / A in
  handleMouseMove_at d.1 d.2 s
  = Some (set_target s (vx - k / 3) (vy + k) (vz + 0.2 * k)).
Proof.
  intros Hn d w k.
  pose proof (discriminant_of_projection vx vy vz Hn) as HD.
  fold d w in HD.
  assert (Hs : sqrt (discriminant d.1 d.2) = 2 * Rabs w).
  { rewrite HD. replace (2 * w * (2 * w)) with ((2 * w)²) by (unfold Rsqr; lra).
    rewrite sqrt_Rsqr_abs, Rabs_mult, (Rabs_pos_eq 2) by lra. reflexivity. }
  assert (HD0 : discriminant d.1 d.2 >= 0) by (rewrite HD; nra).
  rewrite (handleMouseMove_at_inside d.1 d.2 s HD0). cbv zeta.
  rewrite Hs. subst d. rewrite projectOffset_eq. simpl.
  rewrite A_value, B_value. unfold set_target, a, b, c.
  subst k. rewrite A_value. fold w.
  do 2 f_equal; unfold w; lra.
Qed.

(** The discriminant at the projection of any vector: the square of twice
    its component [w] along the direction of projection, less [4*A] times
    the excess of its squared length over 1. For a vector whose length is 1
    only to within rounding, the discriminant is negative when [w] is small
    enough. *)
Lemma discriminant_of_offset (vx vy vz : R) :
  let w := vy - vx / 3 + 0.2 * vz in
  discriminant (vx * 0.9 + vy * 0.3) (- vz + vy * 0.2)
  = (2 * w) * (2 * w) - 4 * A * (norm2 vx vy vz - 1).
Proof.
  intros w. subst w. unfold discriminant, norm2.
  rewrite A_value, B_value, C_value. lra.
Qed.

(** The distance of a square root to a number with nearly the same square. *)
Lemma sqrt_near (u m e : R) :
  0 <= u -> 0 <= m -> Rabs (u * u - m * m) <= e * e -> 0 <= e ->
  Rabs (u - m) <= e.
Proof.
  intros Hu Hm He He0.
  apply Rabs_le. apply Rabs_le_inv in He.
  destruct (Rle_dec (u - m) e) as [H1 | H1];
    destruct (Rle_dec (- e) (u - m)) as [H2 | H2]; try lra.
  - exfalso. assert (H3 : m - u > e) by lra. nra.
  - exfalso. assert (H3 : u - m > e) by lra. nra.
Qed.

(** The round trip for a vector of length 1 to within 1e-12 whose offset
    has a non-negative discriminant: the target is the point of the unit
    sphere reached from the vector along the direction of projection
    [(-1/3, 1, 0.2)], at a parameter [k] within 1e-6 of [(|w| - w) / A]:
    of 0 on the near side, and of the distance to the other point with the
    same offset on the far side. *)
Lemma inverse_of_projection_near (vx vy vz : R) (s : t) :
  Rabs (norm2 vx vy vz - 1) <= 1e-12 ->
  let dx := vx * 0.9 + vy * 0.3 in
  let dy := - vz + vy * 0.2 in
  let w := vy - vx / 3 + 0.2 * vz in
  discriminant dx dy >= 0 ->
  exists k,
    handleMouseMove_at dx dy s
    = Some (set_target s (vx - k / 3) (vy + k) (vz + 0.2 * k)) /\
    Rabs (k - (Rabs w - w) / A) <= 1e-6 /\
    norm2 (vx - k / 3) (vy + k) (vz + 0.2 * k) = 1.
Proof.
  intros Hn dx dy w HD.
  pose proof (discriminant_of_offset vx vy vz) as HDv.
  cbv zeta in HDv. fold dx dy w in HDv.
  pose proof (sqrt_pos (discriminant dx dy)) as Hs0.
  assert (Hsq : sqrt (discriminant dx dy) * sqrt (discriminant dx dy)
                = discriminant dx dy) by (apply sqrt_norm_sqr; lra).
  set (sq := sqrt (discriminant dx dy)) in *.
  exists ((sq - 2 * w) / (2 * A)).
  assert (Hx : (dx - a * ((- B dx dy + sq) / (2 * A))) / b
               = vx - (sq - 2 * w) / (2 * A) / 3).
  { rewrite A_value, B_value. unfold a, b, dx, dy, w. lra. }
  assert (Hy : (- B dx dy + sq) / (2 * A) = vy + (sq - 2 * w) / (2 * A)).
  { rewrite A_value, B_value. unfold dx, dy, w. lra. }
  assert (Hz : - dy + c * ((- B dx dy + sq) / (2 * A))
               = vz + 0.2 * ((sq - 2 * w) / (2 * A))).
  { rewrite A_value, B_value. unfold c, dx, dy, w. lra. }
  split; [| split].
  - rewrite (handleMouseMove_at_inside dx dy s HD). cbv zeta. fold sq.
    rewrite Hx, Hz, Hy. reflexivity.
  - assert (Hnear : Rabs (sq - 2 * Rabs w) <= 2.2e-6).
    { apply sqrt_near; [exact Hs0 | pose proof (Rabs_pos w); lra | | lra].
      rewrite Hsq, HDv.
      replace (2 * Rabs w * (2 * Rabs w)) with (2 * w * (2 * w)).
      - rewrite A_value. apply Rabs_le. apply Rabs_le_inv in Hn. lra.
      - unfold Rabs. destruct (Rcase_abs w); lra. }
    apply Rabs_le. apply Rabs_le_inv in Hnear. rewrite A_value.
    lra.
  - rewrite <- Hx, <- Hy, <- Hz.
    apply (root_on_sphere dx dy sq); [exact Hsq | left; reflexivity].
Qed.

(** The test of the discriminant is not redundant for vectors that are
    unit only to within rounding: this one is within 1e-12 of unit length,
    has [w = 0], and its offset has a negative discriminant. *)
Lemma near_unit_negative_discriminant :
  let vx := 0.9486832980507 in
  let vy := 0.3162277660169 in
  Rabs (norm2 vx vy 0 - 1) <= 1e-12 /\
  vy - vx / 3 + 0.2 * 0 = 0 /\
  discriminant (vx * 0.9 + vy * 0.3) (- 0 + vy * 0.2) < 0.
Proof.
  cbv zeta. split; [| split].
  - apply Rabs_le. unfold norm2. lra.
  - lra.
  - rewrite discriminant_of_offset. cbv zeta. rewrite A_value.
    unfold norm2. lra.
Qed.

(** C1 (amended). For every vector of unit length (to within 1e-12) whose
    component along the direction of projection, [y - x/3 + 0.2*z], is
    non-negative: whenever the discriminant computed from its offset
    [dx = x*0.9 + y*0.3], [dy = -z + y*0.2] is non-negative, the inverse
    projection yields a target that agrees with the vector within 1e-6 in
    every component and has unit length (to within 1e-12). *)
Theorem roundtrip_facing (vx vy vz : R) (s : t) :
  Rabs (norm2 vx vy vz - 1) <= 1e-12 ->
  vy - vx / 3 + 0.2 * vz >= 0 ->
  let dx := vx * 0.9 + vy * 0.3 in
  let dy := - vz + vy * 0.2 in
  discriminant dx dy >= 0 ->
  projectOffset vx vy vz = (dx, dy) /\
  exists s', handleMouseMove_at dx dy s = Some s' /\
    Rabs (targetX s' - vx) <= 1e-6 /\
    Rabs (targetY s' - vy) <= 1e-6 /\
    Rabs (targetZ s' - vz) <= 1e-6 /\
    Rabs (norm2 (targetX s') (targetY s') (targetZ s') - 1) <= 1e-12.
Proof.
  intros Hn Hw dx dy HD.
  split; [apply projectOffset_eq |].
  destruct (inverse_of_projection_near vx vy vz s Hn HD) as (k & H & Hk & Hu).
  rewrite (Rabs_pos_eq (vy - vx / 3 + 0.2 * vz)) in Hk by lra.
  replace ((vy - vx / 3 + 0.2 * vz - (vy - vx / 3 + 0.2 * vz)) / A) with 0 in Hk
    by (rewrite A_value; field).
  apply Rabs_le_inv in Hk.
  eexists. split; [exact H |]. simpl.
  rewrite Hu.
  repeat split; apply Rabs_le; lra.
Qed.

Lemma roundtrip_facing_witness :
  exists s', handleMouseMove_at (0 * 0.9 + (7 / 25) * 0.3)
                                (- (- (24 / 25)) + (7 / 25) * 0.2) init = Some s' /\
    Rabs (targetX s' - 0) <= 1e-6 /\
    Rabs (targetY s' - 7 / 25) <= 1e-6 /\
    Rabs (targetZ s' - - (24 / 25)) <= 1e-6.
Proof.
  destruct (roundtrip_facing 0 (7 / 25) (- (24 / 25)) init)
    as (_ & s' & H & Hx & Hy & Hz & _).
  - apply Rabs_le. unfold norm2. lra.
  - lra.
  - unfold discriminant. rewrite A_value, B_value, C_value. lra.
  - exists s'. repeat split; assumption.
Defined.

(** A unit vector on the far side is not recovered: at [(0, -1, 0)] the
    discriminant is non-negative and the target is [(-150, 191, 90) / 259]. *)
Lemma roundtrip_back_counterexample :
  norm2 0 (-1) 0 = 1 /\
  projectOffset 0 (-1) 0 = (-0.3, -0.2) /\
  discriminant (-0.3) (-0.2) >= 0 /\
  exists s', handleMouseMove_at (-0.3) (-0.2) init = Some s' /\
    targetY s' = 191 / 259 /\
    Rabs (targetY s' - (-1)) > 1e-6.
Proof.
  assert (Hn : norm2 0 (-1) 0 = 1) by (unfold norm2; lra).
  assert (Hp : projectOffset 0 (-1) 0 = (-0.3, -0.2))
    by (rewrite projectOffset_eq; f_equal; lra).
  pose proof (discriminant_of_projection 0 (-1) 0 Hn) as HD.
  pose proof (inverse_of_projection 0 (-1) 0 init Hn) as Hinv.
  cbv zeta in HD, Hinv. rewrite Hp in HD, Hinv. simpl in HD, Hinv.
  repeat split; [exact Hn | exact Hp | rewrite HD; lra |].
  replace (-1 - 0 / 3 + 0.2 * 0) with (-1) in Hinv by lra.
  rewrite Rabs_left in Hinv by lra.
  eexists. split; [exact Hinv |]. simpl. rewrite A_value.
  replace (-1 + (- -1 - -1) / (259 / 225)) with (191 / 259) by field.
  split; [reflexivity |].
  rewrite Rabs_pos_eq by lra. lra.
Qed.

(** C7. With a non-negative discriminant the target is built from the root
    chosen as the specification says (the first candidate if it is
    non-negative, else the second if it is non-negative, else the larger one),
    back-substituted into [x = (dx - 0.3*y)/0.9] and [z = -dy + 0.2*y] and
    divided by the length of the resulting vector; the target has unit
    length and the displayed vector is left as it was. *)
Theorem root_selection (dx dy : R) (s : t) :
  discriminant dx dy >= 0 ->
  let sqrtD := sqrt (discriminant dx dy) in
  let y1 := (- B dx dy + sqrtD) / (2 * A) in
  let y2 := (- B dx dy - sqrtD) / (2 * A) in
  let ysel := selectRoot_spec y1 y2 in
  let xsel := (dx - 0.3 * ysel) / 0.9 in
  let zsel := - dy + 0.2 * ysel in
  let len := sqrt (norm2 xsel ysel zsel) in
  exists s', handleMouseMove_at dx dy s = Some s' /\
    0 < len /\
    targetX s' = xsel / len /\
    targetY s' = ysel / len /\
    targetZ s' = zsel / len /\
    norm2 (targetX s') (targetY s') (targetZ s') = 1 /\
    x s' = x s /\ y s' = y s /\ z s' = z s.
Proof.
  intros HD sqrtD y1 y2 ysel xsel zsel len.
  assert (Hsel : ysel = y1).
  { subst ysel. rewrite <- selected_matches_spec.
    apply selected_is_first. apply candidates_ordered. }
  assert (Hunit : norm2 xsel ysel zsel = 1).
  { subst xsel zsel. rewrite Hsel.
    apply (root_on_sphere dx dy sqrtD).
    - apply sqrt_norm_sqr. lra.
    - left. reflexivity. }
  assert (Hlen : len = 1) by (subst len; rewrite Hunit; apply sqrt_1).
  rewrite (handleMouseMove_at_inside dx dy s HD). cbv zeta.
  fold sqrtD. fold y1. rewrite <- Hsel. unfold a, b, c. fold xsel zsel.
  eexists. split; [reflexivity |]. simpl. rewrite Hlen.
  repeat split; lra.
Qed.

Lemma root_selection_witness :
  exists s', handleMouseMove_at 0 0 init = Some s' /\
    norm2 (targetX s') (targetY s') (targetZ s') = 1 /\
    x s' = 0.707.
Proof.
  destruct (root_selection 0 0 init) as (s' & H & _ & _ & _ & _ & Hn & Hx & _).
  - unfold discriminant. rewrite A_value, B_value, C_value. lra.
  - exists s'. repeat split; assumption.
Defined.

Lemma normalize2_unit (u w : R) :
  0 < u * u + w * w ->
  let len := sqrt (u * u + w * w) in
  0 < len /\ (u / len) * (u / len) + (w / len) * (w / len) = 1.
Proof.
  intros Hpos len.
  assert (Hlen : 0 < len) by (apply sqrt_lt_R0; exact Hpos).
  split; [exact Hlen |].
  assert (Hsq : len * len = u * u + w * w) by (apply sqrt_norm_sqr; lra).
  assert (Hne : len <> 0) by lra.
  replace (u / len * (u / len) + w / len * (w / len))
    with ((u * u + w * w) / (len * len)) by (field; exact Hne).
  rewrite <- Hsq. field. exact Hne.
Qed.

(** An offset at the origin has a positive discriminant. *)
Lemma negative_discriminant_nonzero (dx dy : R) :
  discriminant dx dy < 0 -> 0 < dx * dx + dy * dy.
Proof.
  unfold discriminant. rewrite A_value, B_value, C_value. intros H.
  destruct (Req_dec dx 0) as [-> | Hx]; [| nra].
  destruct (Req_dec dy 0) as [-> | Hy]; [lra | nra].
Qed.

(** Every offset of length above 1.031 has a negative discriminant: the
    projection of the unit sphere is an ellipse whose longest half-axis is a
    little shorter than that. *)
Lemma far_offset_discriminant (dx dy : R) :
  1.031 < sqrt (dx * dx + dy * dy) -> discriminant dx dy < 0.
Proof.
  intros H.
  assert (Hsq : 1.031 * 1.031 < dx * dx + dy * dy).
  { rewrite <- (sqrt_norm_sqr (dx * dx + dy * dy)) by nra. nra. }
  unfold discriminant. rewrite A_value, B_value, C_value.
  pose proof (Rle_0_sqr (dx - 0.3686 * dy)) as H1. unfold Rsqr in H1.
  pose proof (Rle_0_sqr dy) as H2. unfold Rsqr in H2.
  nra.
Qed.

(** C2 (amended). For every offset whose discriminant is negative, which
    includes every offset of length above 1.031, the target becomes a unit
    vector with y-component exactly 0 that points in the direction of
    [(dx / 0.9, 0, -dy)]; the displayed vector is left as it was. *)
Theorem rim_clamping (dx dy : R) (s : t) :
  discriminant dx dy < 0 \/ 1.031 < sqrt (dx * dx + dy * dy) ->
  exists s', handleMouseMove_at dx dy s = Some s' /\
    targetY s' = 0 /\
    norm2 (targetX s') (targetY s') (targetZ s') = 1 /\
    0.9 * targetX s' * dy = - targetZ s' * dx /\
    0 <= targetX s' * dx /\ targetZ s' * dy <= 0 /\
    x s' = x s /\ y s' = y s /\ z s' = z s.
Proof.
  intros H.
  assert (HD : discriminant dx dy < 0)
    by (destruct H as [H | H]; [exact H | apply far_offset_discriminant, H]).
  clear H. unfold handleMouseMove_at.
  destruct (Rge_dec (discriminant dx dy) 0) as [Hge | _]; [lra |].
  pose proof (negative_discriminant_nonzero dx dy HD) as Hpos.
  cbv zeta.
  set (len2D := sqrt (dx * dx + dy * dy)).
  assert (Hl2 : 0 < len2D) by (apply sqrt_lt_R0; exact Hpos).
  assert (Hl2sq : len2D * len2D = dx * dx + dy * dy)
    by (apply sqrt_norm_sqr; lra).
  destruct (Rgt_dec len2D 0) as [_ | Hn]; [| lra].
  rewrite !fdiv_Some by lra. simpl.
  assert (Hnd : (dx / len2D) * (dx / len2D) + (dy / len2D) * (dy / len2D) = 1).
  { replace (dx / len2D * (dx / len2D) + dy / len2D * (dy / len2D))
      with ((dx * dx + dy * dy) / (len2D * len2D)) by (field; lra).
    rewrite Hl2sq. field. lra. }
  set (tX := dx / len2D / 0.9) in *.
  set (tZ := - (dy / len2D)) in *.
  assert (Hpos2 : 0 < tX * tX + tZ * tZ).
  { subst tX tZ. revert Hnd.
    generalize (dx / len2D) as u, (dy / len2D) as v. intros u v Hnd.
    nra. }
  destruct (normalize2_unit tX tZ Hpos2) as [Hlen Hunit].
  set (len := sqrt (tX * tX + tZ * tZ)) in *.
  destruct (Rgt_dec len 0) as [_ | Hn]; [| lra].
  rewrite !fdiv_Some by lra. simpl.
  eexists. split; [reflexivity |]. simpl.
  assert (Hil : 0 < / len) by (apply Rinv_0_lt_compat; exact Hlen).
  assert (Hil2 : 0 < / len2D) by (apply Rinv_0_lt_compat; exact Hl2).
  repeat split; try reflexivity.
  - unfold norm2. lra.
  - subst tX tZ. field. lra.
  - subst tX. unfold Rdiv.
    replace (dx * / len2D * / 0.9 * / len * dx)
      with ((dx * dx) * (/ len2D * / len * / 0.9)) by ring.
    apply Rmult_le_pos; [nra |].
    apply Rmult_le_pos; [apply Rmult_le_pos; lra | lra].
  - subst tZ. unfold Rdiv.
    replace (- (dy * / len2D) * / len * dy)
      with (- ((dy * dy) * (/ len2D * / len))) by ring.
    assert (0 <= dy * dy * (/ len2D * / len)).
    { apply Rmult_le_pos; [nra |]. apply Rmult_le_pos; lra. }
    lra.
Qed.

(** The example of the specification: the offset [(5, 0)] gives the target
    [(1, 0, 0)]. *)
Lemma rim_clamping_witness :
  exists s', handleMouseMove_at 5 0 init = Some s' /\
    targetX s' = 1 /\ targetY s' = 0 /\ targetZ s' = 0.
Proof.
  destruct (rim_clamping 5 0 init)
    as (s' & H & Hy & Hn & Hcol & Hx & _).
  - right.
    replace (5 * 5 + 0 * 0) with (5 * 5) by lra.
    rewrite sqrt_sqr_nonneg by lra. lra.
  - exists s'. split; [exact H |].
    assert (Hz : targetZ s' = 0) by lra.
    unfold norm2 in Hn. rewrite Hy, Hz in Hn.
    repeat split; [nra | exact Hy | exact Hz].
Defined.

(** An offset of length above 1 whose discriminant is not negative: the
    projection of the unit vector [(0, 7/25, -24/25)]. The target has
    y-component [7/25]. *)
Lemma rim_clamping_counterexample :
  1 < sqrt (0.084 * 0.084 + 1.016 * 1.016) /\
  exists s', handleMouseMove_at 0.084 1.016 init = Some s' /\
    targetY s' = 7 / 25 /\ targetY s' <> 0.
Proof.
  split.
  - rewrite <- sqrt_1 at 1. apply sqrt_lt_1_alt. lra.
  - assert (Hn : norm2 0 (7 / 25) (- (24 / 25)) = 1) by (unfold norm2; lra).
    pose proof (inverse_of_projection 0 (7 / 25) (- (24 / 25)) init Hn) as Hinv.
    cbv zeta in Hinv. rewrite projectOffset_eq in Hinv. simpl in Hinv.
    replace (0 * 0.9 + 7 / 25 * 0.3) with 0.084 in Hinv by lra.
    replace (- - (24 / 25) + 7 / 25 * 0.2) with 1.016 in Hinv by lra.
    rewrite Rabs_pos_eq in Hinv by lra.
    eexists. split; [exact Hinv |]. simpl. rewrite A_value.
    split; [field | ].
    replace (7 / 25 + (7 / 25 - 0 / 3 + 0.2 * - (24 / 25)
              - (7 / 25 - 0 / 3 + 0.2 * - (24 / 25))) / (259 / 225))
      with (7 / 25) by field.
    lra.
Qed.

(** The squared length of the interpolated vector. *)
Lemma lerp_norm2 (s : t) :
  let x1 := x s + (targetX s - x s) * 0.08 in
  let y1 := y s + (targetY s - y s) * 0.08 in
  let z1 := z s + (targetZ s - z s) * 0.08 in
  norm2 x1 y1 z1
  = 0.8464 * norm2 (x s) (y s) (z s) + 0.1472 * alignment s
    + 0.0064 * norm2 (targetX s) (targetY s) (targetZ s).
Proof. cbv zeta. unfold norm2, alignment. lra. Qed.

(** The inner product is bounded by the mean of the squared lengths. *)
Lemma alignment_bounds (s : t) :
  Rabs (2 * alignment s)
  <= norm2 (x s) (y s) (z s) + norm2 (targetX s) (targetY s) (targetZ s).
Proof.
  apply Rabs_le. unfold alignment, norm2.
  pose proof (Rle_0_sqr (x s + targetX s)) as H1.
  pose proof (Rle_0_sqr (y s + targetY s)) as H2.
  pose proof (Rle_0_sqr (z s + targetZ s)) as H3.
  pose proof (Rle_0_sqr (x s - targetX s)) as H4.
  pose proof (Rle_0_sqr (y s - targetY s)) as H5.
  pose proof (Rle_0_sqr (z s - targetZ s)) as H6.
  unfold Rsqr in *. split; lra.
Qed.

(** C8 (amended). If the displayed vector and the target both have unit
    length (to within 1e-9), one frame of [animate] moves each component by
    0.08 of its distance to the target and divides by the length [len] of
    the result, which is above 0.83, so the branch for a zero length is not
    taken; afterwards the displayed vector has unit length to within
    rounding ([|x*x + y*y + z*z - 1| <= 1e-12]), it is the interpolated
    vector divided by [len], and the target is unchanged. *)
Theorem animate_keeps_unit (s : t) :
  Rabs (norm2 (x s) (y s) (z s) - 1) <= 1e-9 ->
  Rabs (norm2 (targetX s) (targetY s) (targetZ s) - 1) <= 1e-9 ->
  let x1 := x s + (targetX s - x s) * 0.08 in
  let y1 := y s + (targetY s - y s) * 0.08 in
  let z1 := z s + (targetZ s - z s) * 0.08 in
  let len := sqrt (x1 * x1 + y1 * y1 + z1 * z1) in
  0.83 < len /\
  exists s' pos, animate s = Some (s', pos) /\
    Rabs (norm2 (x s') (y s') (z s') - 1) <= 1e-12 /\
    Rabs (x s' * len - x1) <= 1e-12 /\
    Rabs (y s' * len - y1) <= 1e-12 /\
    Rabs (z s' * len - z1) <= 1e-12 /\
    targetX s' = targetX s /\ targetY s' = targetY s /\
    targetZ s' = targetZ s /\
    pos = cartesianToScreen (x s') (y s') (z s') 22.
Proof.
  intros Hv Ht x1 y1 z1 len.
  apply Rabs_le_inv in Hv. apply Rabs_le_inv in Ht.
  pose proof (lerp_norm2 s) as HN. cbv zeta in HN. fold x1 y1 z1 in HN.
  pose proof (Rabs_le_inv _ _ (alignment_bounds s)) as Hc.
  unfold norm2 at 1 in HN.
  assert (Hlow : 0.83 * 0.83 < x1 * x1 + y1 * y1 + z1 * z1) by lra.
  assert (Hpos : 0 < x1 * x1 + y1 * y1 + z1 * z1) by lra.
  destruct (normalize3_unit x1 y1 z1 Hpos) as [Hlen Hunit]. fold len in Hlen, Hunit.
  assert (Hlen83 : 0.83 < len).
  { rewrite <- (sqrt_sqr_nonneg 0.83) by lra. apply sqrt_lt_1_alt. lra. }
  split; [exact Hlen83 |].
  unfold animate. cbv zeta. fold x1 y1 z1. fold len.
  destruct (Rgt_dec len 0) as [_ | Hn]; [| lra].
  rewrite !fdiv_Some by lra. simpl.
  eexists. eexists. split; [reflexivity |]. simpl.
  unfold norm2. rewrite Hunit.
  replace (x1 / len * len - x1) with 0 by (field; lra).
  replace (y1 / len * len - y1) with 0 by (field; lra).
  replace (z1 / len * len - z1) with 0 by (field; lra).
  replace (1 - 1) with 0 by lra. rewrite Rabs_R0.
  repeat split; try reflexivity; lra.
Qed.

Lemma animate_keeps_unit_witness :
  exists s' pos, animate (mk 1 0 0 0 0 1) = Some (s', pos) /\
    Rabs (norm2 (x s') (y s') (z s') - 1) <= 1e-12.
Proof.
  destruct (animate_keeps_unit (mk 1 0 0 0 0 1))
    as (_ & s' & pos & H & Hn & _).
  - apply Rabs_le. unfold norm2. simpl. lra.
  - apply Rabs_le. unfold norm2. simpl. lra.
  - exists s', pos. split; assumption.
Defined.

(** Every division of the icon by a computed length sits under the test
    that the length is positive: given the offset, [handleMouseMove] and
    [animate] always produce finite numbers. *)
Lemma handleMouseMove_at_total (dx dy : R) (s : t) :
  exists s', handleMouseMove_at dx dy s = Some s'.
Proof.
  unfold handleMouseMove_at.
  destruct (Rge_dec (discriminant dx dy) 0) as [HD | HD]; cbv zeta.
  - destruct (Rgt_dec _ 0) as [Hlen | _]; [| eexists; reflexivity].
    rewrite !fdiv_Some by lra. simpl. eexists. reflexivity.
  - destruct (Rgt_dec (sqrt (dx * dx + dy * dy)) 0) as [Hl2 | _];
      [| eexists; reflexivity].
    rewrite !fdiv_Some by lra. simpl.
    destruct (Rgt_dec _ 0) as [Hlen | _]; [| eexists; reflexivity].
    rewrite !fdiv_Some by lra. simpl. eexists. reflexivity.
Qed.

Lemma sphere_animate_total (s : t) : exists r, animate s = Some r.
Proof.
  unfold animate. cbv zeta.
  destruct (Rgt_dec _ 0) as [Hlen | _]; [| eexists; reflexivity].
  rewrite !fdiv_Some by lra. simpl. eexists. reflexivity.
Qed.

(** The offset itself is computed by an unguarded division by the radius of
    the sphere on screen, which is zero for a container of no width. *)
Lemma pointerOffset_flat (rect : DOMRect) (e : MouseEvent) :
  width rect = 0 -> 0 <= height rect -> pointerOffset rect e = None.
Proof.
  intros Hw Hh. unfold pointerOffset. cbv zeta. rewrite Hw.
  replace (22 / 96 * 0) with 0 by lra.
  rewrite Rmin_left by lra. rewrite !fdiv_zero. reflexivity.
Qed.

End BlochSphereIconProofs.

(** ** The particle field *)

Section TensorNetworkAnimationProofs.
Import TensorNetworkAnimation.

(** *** The pointer *)

(** The attraction block never divides by zero, and it only changes the
    acceleration. *)
Lemma mouseAttraction_total (m : Mouse) (p : Particle) :
  exists p', mouseAttraction m p = Some p' /\
    x p' = x p /\ y p' = y p /\ radius p' = radius p /\
    vx p' = vx p /\ vy p' = vy p.
Proof.
  unfold mouseAttraction.
  destruct (mouse_x m) as [mx |]; [| exists p; repeat split; reflexivity].
  destruct (mouse_y m) as [my |]; [| exists p; repeat split; reflexivity].
  cbv zeta.
  destruct (Rlt_dec _ _) as [Hlt |]; [| exists p; repeat split; reflexivity].
  destruct (Rgt_dec _ _) as [Hgt |]; [| exists p; repeat split; reflexivity].
  rewrite !fdiv_Some by lra. simpl.
  eexists. split; [reflexivity |]. repeat split; reflexivity.
Qed.

(** After [mouseout] the pointer attracts nothing. *)
Lemma mouseOut_disables_attraction (s : t) (p : Particle) :
  mouseAttraction (mouse (onMouseOut s)) p = Some p.
Proof. reflexivity. Qed.

(** *** The velocity clamp *)

Lemma speed_nonneg (p : Particle) : 0 <= speed p.
Proof. apply sqrt_pos. Qed.

Lemma clampVelocity_bounded (p : Particle) :
  exists p', clampVelocity p = Some p' /\
    speed p' <= physics.maxVelocity /\
    x p' = x p /\ y p' = y p /\ radius p' = radius p.
Proof.
  unfold clampVelocity.
  destruct (Rgt_dec (speed p) physics.maxVelocity) as [Hgt | Hle].
  - assert (Hpos : 0 < speed p) by (unfold physics.maxVelocity in Hgt; lra).
    rewrite !fdiv_Some by lra. simpl.
    eexists. split; [reflexivity |]. repeat split; try reflexivity.
    unfold speed at 1. simpl.
    assert (Hsq : speed p * speed p = vx p * vx p + vy p * vy p)
      by (apply sqrt_norm_sqr; nra).
    replace (vx p / speed p * physics.maxVelocity * (vx p / speed p * physics.maxVelocity)
             + vy p / speed p * physics.maxVelocity * (vy p / speed p * physics.maxVelocity))
      with (physics.maxVelocity * physics.maxVelocity).
    + rewrite sqrt_sqr_nonneg; unfold physics.maxVelocity; lra.
    + transitivity ((vx p * vx p + vy p * vy p) / (speed p * speed p)
                    * (physics.maxVelocity * physics.maxVelocity)).
      * rewrite <- Hsq. field. lra.
      * field. lra.
  - exists p. split; [reflexivity |]. repeat split; try reflexivity. lra.
Qed.

(** *** The walls *)

Lemma bounceX_fields (w : R) (p : Particle) :
  y (bounceX w p) = y p /\ vy (bounceX w p) = vy p /\
  radius (bounceX w p) = radius p.
Proof.
  unfold bounceX. destruct (Rlt_dec _ _); [repeat split; reflexivity |].
  destruct (Rgt_dec _ _); repeat split; reflexivity.
Qed.

Lemma bounceY_fields (h : R) (p : Particle) :
  x (bounceY h p) = x p /\ vx (bounceY h p) = vx p /\
  radius (bounceY h p) = radius p.
Proof.
  unfold bounceY. destruct (Rlt_dec _ _); [repeat split; reflexivity |].
  destruct (Rgt_dec _ _); repeat split; reflexivity.
Qed.

Lemma bounceX_speed (w : R) (p : Particle) :
  vx (bounceX w p) * vx (bounceX w p) <= vx p * vx p.
Proof.
  unfold bounceX. destruct (Rlt_dec _ _); [simpl; nra |].
  destruct (Rgt_dec _ _); simpl; nra.
Qed.

Lemma bounceY_speed (h : R) (p : Particle) :
  vy (bounceY h p) * vy (bounceY h p) <= vy p * vy p.
Proof.
  unfold bounceY. destruct (Rlt_dec _ _); [simpl; nra |].
  destruct (Rgt_dec _ _); simpl; nra.
Qed.

Lemma bounce_speed (w h : R) (p : Particle) : speed (bounce w h p) <= speed p.
Proof.
  unfold speed, bounce. apply sqrt_le_1_alt.
  destruct (bounceY_fields h (bounceX w p)) as (_ & Hvx & _).
  destruct (bounceX_fields w p) as (_ & Hvy & _).
  pose proof (bounceY_speed h (bounceX w p)) as H1.
  pose proof (bounceX_speed w p) as H2.
  rewrite Hvx. rewrite Hvy in H1. lra.
Qed.

(** [updateParticle] never divides by zero. *)
Lemma advance_total (m : Mouse) (u1 u2 : R) (p : Particle) :
  exists q, advance m u1 u2 p = Some q /\
    speed q <= physics.maxVelocity /\ radius q = radius p.
Proof.
  unfold advance.
  destruct (mouseAttraction_total m p) as (p1 & -> & _ & _ & Hr1 & _).
  simpl.
  destruct (clampVelocity_bounded (accelerate u1 u2 p1))
    as (p2 & -> & Hs & _ & _ & Hr2).
  simpl. exists (move p2). split; [reflexivity |].
  split; [exact Hs |]. simpl. rewrite Hr2. simpl. exact Hr1.
Qed.

Lemma updateParticle_total (w h : R) (m : Mouse) (u1 u2 : R) (p : Particle) :
  exists p', updateParticle w h m u1 u2 p = Some p'.
Proof.
  unfold updateParticle.
  destruct (advance_total m u1 u2 p) as (q & -> & _). simpl.
  eexists. reflexivity.
Qed.

(** C4 (amended). One call of [updateParticle] always yields a particle,
    whatever the velocity, the accumulated acceleration, the pointer, the
    two random values and the canvas are, and its speed does not exceed
    [maxVelocity] by more than rounding: it is at most
    [maxVelocity * (1 + 1e-12)]. *)
Theorem speed_never_exceeds_max (w h : R) (m : Mouse) (u1 u2 : R)
    (p : Particle) :
  exists p', updateParticle w h m u1 u2 p = Some p' /\
    sqrt (vx p' * vx p' + vy p' * vy p') <= physics.maxVelocity * (1 + 1e-12).
Proof.
  unfold updateParticle.
  destruct (advance_total m u1 u2 p) as (q & -> & Hs & _). simpl.
  eexists. split; [reflexivity |].
  pose proof (bounce_speed w h q) as Hb. unfold speed in Hb, Hs.
  unfold physics.maxVelocity in *. lra.
Qed.

(** Without the pointer and below the maximal speed, the particle moves by
    its new velocity. *)
Lemma advance_free (m : Mouse) (u1 u2 : R) (p : Particle) :
  mouse_x m = None ->
  speed (accelerate u1 u2 p) <= physics.maxVelocity ->
  advance m u1 u2 p = Some (move (accelerate u1 u2 p)).
Proof.
  intros Hm Hs. unfold advance, mouseAttraction. rewrite Hm. simpl.
  unfold clampVelocity.
  destruct (Rgt_dec _ _) as [Hgt | _]; [lra | reflexivity].
Qed.

Lemma withinWalls (w h : R) (p : Particle) :
  radius p <= x p <= w - radius p ->
  radius p <= y p <= h - radius p ->
  bounce w h p = p.
Proof.
  intros Hx Hy. unfold bounce, bounceX.
  destruct (Rlt_dec (x p) _) as [? | _]; [lra |].
  destruct (Rgt_dec (x p) _) as [? | _]; [lra |].
  unfold bounceY.
  destruct (Rlt_dec (y p) _) as [? | _]; [lra |].
  destruct (Rgt_dec (y p) _) as [? | _]; [lra | reflexivity].
Qed.

(** C6. Let [q] be the particle after the move. If a coordinate of [q] is
    outside [[radius, dimension - radius]], the update sets it to [radius]
    (below) or to [dimension - radius] (above) and multiplies the velocity
    component of that axis by -0.9; a coordinate inside the interval and its
    velocity component stay as they are, and neither axis touches the other.
    When a coordinate is both below and above (a canvas narrower than the
    particle), the first case applies. *)
Theorem reflective_boundary (w h : R) (m : Mouse) (u1 u2 : R) (p : Particle) :
  exists q p',
    advance m u1 u2 p = Some q /\
    updateParticle w h m u1 u2 p = Some p' /\
    (x q < radius q \/ x q > w - radius q ->
       (x q < radius q /\ x p' = radius q \/
        x q > w - radius q /\ x p' = w - radius q) /\
       vx p' = vx q * -0.9) /\
    (x q < radius q -> x p' = radius q) /\
    (radius q <= x q -> x q > w - radius q -> x p' = w - radius q) /\
    (radius q <= x q <= w - radius q -> x p' = x q /\ vx p' = vx q) /\
    (y q < radius q \/ y q > h - radius q ->
       (y q < radius q /\ y p' = radius q \/
        y q > h - radius q /\ y p' = h - radius q) /\
       vy p' = vy q * -0.9) /\
    (y q < radius q -> y p' = radius q) /\
    (radius q <= y q -> y q > h - radius q -> y p' = h - radius q) /\
    (radius q <= y q <= h - radius q -> y p' = y q /\ vy p' = vy q).
Proof.
  unfold updateParticle.
  destruct (advance_total m u1 u2 p) as (q & Hq & _). rewrite Hq. simpl.
  exists q, (bounce w h q). split; [reflexivity |]. split; [reflexivity |].
  unfold bounce.
  destruct (bounceY_fields h (bounceX w q)) as (Hx & Hvx & _).
  destruct (bounceX_fields w q) as (Hy & Hvy & Hr).
  rewrite Hx, Hvx.
  assert (HX :
    (x q < radius q \/ x q > w - radius q ->
       (x q < radius q /\ x (bounceX w q) = radius q \/
        x q > w - radius q /\ x (bounceX w q) = w - radius q) /\
       vx (bounceX w q) = vx q * -0.9) /\
    (x q < radius q -> x (bounceX w q) = radius q) /\
    (radius q <= x q -> x q > w - radius q -> x (bounceX w q) = w - radius q) /\
    (radius q <= x q <= w - radius q ->
       x (bounceX w q) = x q /\ vx (bounceX w q) = vx q)).
  { unfold bounceX.
    destruct (Rlt_dec (x q) (radius q)) as [Hlo | Hlo]; simpl.
    - repeat split; intros; lra.
    - destruct (Rgt_dec (x q) (w - radius q)) as [Hhi | Hhi]; simpl.
      + repeat split; intros; lra.
      + repeat split; intros; lra. }
  assert (HY :
    (y q < radius q \/ y q > h - radius q ->
       (y q < radius q /\ y (bounceY h (bounceX w q)) = radius q \/
        y q > h - radius q /\ y (bounceY h (bounceX w q)) = h - radius q) /\
       vy (bounceY h (bounceX w q)) = vy q * -0.9) /\
    (y q < radius q -> y (bounceY h (bounceX w q)) = radius q) /\
    (radius q <= y q -> y q > h - radius q ->
       y (bounceY h (bounceX w q)) = h - radius q) /\
    (radius q <= y q <= h - radius q ->
       y (bounceY h (bounceX w q)) = y q /\ vy (bounceY h (bounceX w q)) = vy q)).
  { unfold bounceY. rewrite Hy, Hvy, Hr.
    destruct (Rlt_dec (y q) (radius q)) as [Hlo | Hlo]; simpl.
    - rewrite ?Hr, ?Hvy. repeat split; intros; lra.
    - destruct (Rgt_dec (y q) (h - radius q)) as [Hhi | Hhi]; simpl.
      + rewrite ?Hr, ?Hvy. repeat split; intros; lra.
      + rewrite ?Hy, ?Hvy. repeat split; intros; lra. }
  tauto.
Qed.

(** A particle at [x = 4] with radius 3 and velocity [(-5, 0)], no pointer,
    both random values 0.5: it would reach [x = -1], and ends at [x = 3] with
    velocity [(4.5, 0)]. *)
Lemma reflective_boundary_witness :
  exists p', updateParticle 800 600 (mkMouse None None 150) 0.5 0.5 sampleLeft
             = Some p' /\
    x p' = 3 /\ vx p' = 4.5 /\ y p' = 100 /\ vy p' = 0.
Proof.
  destruct (reflective_boundary 800 600 (mkMouse None None 150) 0.5 0.5 sampleLeft)
    as (q & p' & Hq & Hp' & HXout & HXlo & _ & _ & _ & _ & _ & HYin).
  rewrite advance_free in Hq; [| reflexivity |].
  - injection Hq as <-. simpl in *.
    unfold physics.brownianStrength, physics.damping in *.
    exists p'. split; [exact Hp' |].
    destruct HXout as [_ Hvx]; [left; lra |].
    destruct HYin as [Hy Hvy]; [lra |].
    repeat split; [rewrite HXlo by lra; reflexivity | lra | lra | lra].
  - unfold speed. simpl.
    unfold physics.brownianStrength, physics.damping, physics.maxVelocity.
    replace 10.0 with (sqrt (10 * 10)) by (rewrite sqrt_sqr_nonneg; lra).
    apply sqrt_le_1_alt. lra.
Defined.

(** C9. While a coordinate of the pointer is [null] the attraction block
    leaves the particle as it is. With the pointer at [(mx, my)], a particle
    at distance [d] with [0 < d < radius] gets the acceleration
    [force * (mx - x, my - y) / d], which points to the pointer and has the
    positive length [force = (radius - d) / radius * 0.5]; any other
    particle, in particular one at the pointer ([d = 0]) or on the boundary
    ([d = radius]), is left as it is. *)
Theorem pointer_interaction (m : Mouse) (p : Particle) :
  (mouse_x m = None \/ mouse_y m = None -> mouseAttraction m p = Some p) /\
  (forall mx my, mouse_x m = Some mx -> mouse_y m = Some my ->
     let dx := x p - mx in
     let dy := y p - my in
     let distance := sqrt (dx * dx + dy * dy) in
     let force := (mouse_radius m - distance) / mouse_radius m * 0.5 in
     let cx := (mx - x p) / distance * force in
     let cy := (my - y p) / distance * force in
     (0 < distance < mouse_radius m ->
        mouseAttraction m p = Some (set_acc p (ax p + cx) (ay p + cy)) /\
        0 < force /\ sqrt (cx * cx + cy * cy) = force) /\
     (~ (0 < distance < mouse_radius m) -> mouseAttraction m p = Some p)).
Proof.
  split.
  - unfold mouseAttraction. intros [-> | ->]; [reflexivity |].
    destruct (mouse_x m); reflexivity.
  - intros mx my Hx Hy dx dy distance force cx cy.
    unfold mouseAttraction. rewrite Hx, Hy. cbv zeta.
    fold dx dy. fold distance.
    split.
    + intros [Hpos Hlt].
      destruct (Rlt_dec distance (mouse_radius m)) as [_ | Hn]; [| lra].
      destruct (Rgt_dec distance 0) as [_ | Hn]; [| lra].
      rewrite !fdiv_Some by lra. simpl. fold force.
      assert (Hf : 0 < force).
      { subst force. apply Rmult_lt_0_compat; [| lra].
        apply Rdiv_lt_0_compat; lra. }
      split; [| split; [exact Hf |]].
      * unfold set_acc. do 2 f_equal; subst cx cy dx dy; field; lra.
      * assert (Hsq : distance * distance = dx * dx + dy * dy)
          by (apply sqrt_norm_sqr; nra).
        replace (cx * cx + cy * cy) with (force * force).
        -- apply sqrt_sqr_nonneg. lra.
        -- subst cx cy.
           transitivity ((dx * dx + dy * dy) / (distance * distance)
                         * (force * force)).
           ++ rewrite <- Hsq. field. lra.
           ++ subst dx dy. field. lra.
    + intros Hn.
      destruct (Rlt_dec distance (mouse_radius m)) as [Hlt |]; [| reflexivity].
      destruct (Rgt_dec distance 0) as [Hgt |]; [| reflexivity].
      exfalso. apply Hn. lra.
Qed.

Lemma pointer_interaction_witness :
  mouseAttraction sampleMouse sampleNear
  = Some (set_acc sampleNear
            (0 + (0 - 3) / sqrt ((3 - 0) * (3 - 0) + (4 - 0) * (4 - 0))
                 * ((150 - sqrt ((3 - 0) * (3 - 0) + (4 - 0) * (4 - 0))) / 150 * 0.5))
            (0 + (0 - 4) / sqrt ((3 - 0) * (3 - 0) + (4 - 0) * (4 - 0))
                 * ((150 - sqrt ((3 - 0) * (3 - 0) + (4 - 0) * (4 - 0))) / 150 * 0.5))).
Proof.
  destruct (pointer_interaction sampleMouse sampleNear) as [_ H].
  destruct (H 0 0 eq_refl eq_refl) as [Hin _].
  apply Hin. simpl.
  replace ((3 - 0) * (3 - 0) + (4 - 0) * (4 - 0)) with (5 * 5) by lra.
  rewrite sqrt_sqr_nonneg by lra. lra.
Defined.

(** *** The pairwise forces *)

Lemma set_acc_same (p : Particle) (a1 a2 : R) :
  a1 = ax p -> a2 = ay p -> set_acc p a1 a2 = p.
Proof. intros -> ->. destruct p. reflexivity. Qed.

Lemma softened_nonzero (d : R) :
  0 <= d -> (d + physics.softening) * (d + physics.softening) <> 0.
Proof. unfold physics.softening. intros H. nra. Qed.

(** The body of the loop adds opposite amounts to the two particles. *)
Lemma pairForce_inv (p1 p2 : Particle) (pp : Particle * Particle) :
  pairForce p1 p2 = Some pp ->
  exists fx fy,
    pp = (set_acc p1 (ax p1 - fx) (ay p1 - fy),
          set_acc p2 (ax p2 + fx) (ay p2 + fy)).
Proof.
  unfold pairForce. cbv zeta.
  destruct (Rgt_dec _ _) as [Hfar | Hnear].
  - intros [= <-]. exists 0, 0.
    rewrite !set_acc_same by lra. reflexivity.
  - rewrite (fdiv_Some (physics.coulombStrength * charge p1 * charge p2))
      by (apply softened_nonzero, sqrt_pos). simpl.
    destruct (fdiv (x p2 - x p1) _) as [ux |]; [| discriminate]. simpl.
    destruct (fdiv (y p2 - y p1) _) as [uy |]; [| discriminate]. simpl.
    intros [= <-]. eexists _, _. reflexivity.
Qed.

(** The body of the loop has no value exactly when the two particles are at
    the same place. *)
Lemma pairForce_None (p1 p2 : Particle) :
  pairForce p1 p2 = None <-> x p1 = x p2 /\ y p1 = y p2.
Proof.
  unfold pairForce. cbv zeta.
  set (dx := x p2 - x p1). set (dy := y p2 - y p1).
  set (dist := sqrt (dx * dx + dy * dy)).
  assert (Hd : 0 <= dist) by apply sqrt_pos.
  split.
  - destruct (Rgt_dec dist _) as [Hfar | Hnear]; [discriminate |].
    rewrite (fdiv_Some (physics.coulombStrength * charge p1 * charge p2))
      by (apply softened_nonzero, Hd). simpl.
    destruct (Req_dec dist 0) as [Hz | Hnz].
    + intros _. apply sqrt_sum2_zero in Hz. subst dx dy. lra.
    + rewrite !fdiv_Some by exact Hnz. discriminate.
  - intros [Hx Hy].
    assert (Hz : dist = 0).
    { subst dist dx dy. rewrite Hx, Hy, !Rminus_diag, Rmult_0_l, Rplus_0_l.
      apply sqrt_0. }
    destruct (Rgt_dec dist _) as [Hfar | Hnear];
      [unfold physics.screeningLength in Hfar; lra |].
    rewrite (fdiv_Some (physics.coulombStrength * charge p1 * charge p2))
      by (apply softened_nonzero, Hd). simpl.
    rewrite Hz, !fdiv_zero. reflexivity.
Qed.

Lemma pairForce_pos (p1 p2 : Particle) (pp : Particle * Particle) :
  pairForce p1 p2 = Some pp -> pos pp.1 = pos p1 /\ pos pp.2 = pos p2.
Proof.
  intros H. destruct (pairForce_inv p1 p2 pp H) as (fx & fy & ->).
  split; reflexivity.
Qed.

(** C5. One iteration of the inner loop on the pair [(i, j)] changes the
    acceleration of particle [i] by [(-fx, -fy)] and that of particle [j] by
    [(+fx, +fy)]: the two contributions are exact negations of each other,
    and nothing else in the array changes. *)
Theorem newton_third_law (ps ps' : list Particle) (i j : nat)
    (p1 p2 : Particle) :
  i <> j ->
  ps !! i = Some p1 ->
  ps !! j = Some p2 ->
  forceStep i j ps = Some ps' ->
  exists p1' p2' fx fy,
    ps' !! i = Some p1' /\ ps' !! j = Some p2' /\
    p1' = set_acc p1 (ax p1 - fx) (ay p1 - fy) /\
    p2' = set_acc p2 (ax p2 + fx) (ay p2 + fy) /\
    ax p1' - ax p1 = - (ax p2' - ax p2) /\
    ay p1' - ay p1 = - (ay p2' - ay p2) /\
    (forall k, k <> i -> k <> j -> ps' !! k = ps !! k).
Proof.
  intros Hij Hi Hj. unfold forceStep. rewrite Hi, Hj. simpl.
  destruct (pairForce p1 p2) as [pp |] eqn:Hpp; [| discriminate]. simpl.
  intros [= <-].
  destruct (pairForce_inv p1 p2 pp Hpp) as (fx & fy & ->). simpl.
  apply lookup_lt_Some in Hi as Hli. apply lookup_lt_Some in Hj as Hlj.
  eexists _, _, fx, fy.
  split; [| split; [| split; [reflexivity | split; [reflexivity |]]]].
  - rewrite list_lookup_insert_ne by (intros ->; contradiction).
    apply list_lookup_insert_eq. exact Hli.
  - apply list_lookup_insert_eq. rewrite length_insert. exact Hlj.
  - simpl. repeat split; try lra.
    intros k Hki Hkj. rewrite !list_lookup_insert_ne by congruence. reflexivity.
Qed.

(** *** Loops *)

Section Loops.
Context {I S : Type} (P : S -> Prop) (body : I -> S -> option S).

Lemma forM_preserves (l : list I) (s s' : S) :
  (forall i s1 s2, i ∈ l -> P s1 -> body i s1 = Some s2 -> P s2) ->
  P s -> forM body l s = Some s' -> P s'.
Proof.
  revert s. induction l as [| i l IH]; intros s Hstep Hs; simpl.
  - intros [= <-]. exact Hs.
  - destruct (body i s) as [s1 |] eqn:Hb; [| discriminate]. simpl.
    apply IH.
    + intros k s2 s3 Hk. apply Hstep. right. exact Hk.
    + apply (Hstep i s s1); [left | exact Hs | exact Hb].
Qed.

Lemma forM_total (l : list I) (s : S) :
  (forall i s1, i ∈ l -> P s1 -> exists s2, body i s1 = Some s2 /\ P s2) ->
  P s -> exists s', forM body l s = Some s' /\ P s'.
Proof.
  revert s. induction l as [| i l IH]; intros s Hstep Hs; simpl.
  - exists s. split; [reflexivity | exact Hs].
  - destruct (Hstep i s) as (s1 & -> & Hs1); [left | exact Hs |]. simpl.
    apply IH; [| exact Hs1].
    intros k s2 Hk. apply Hstep. right. exact Hk.
Qed.

Lemma forM_fails (l : list I) (k : I) (s : S) :
  (forall i s1 s2, i ∈ l -> P s1 -> body i s1 = Some s2 -> P s2) ->
  k ∈ l -> (forall s1, P s1 -> body k s1 = None) ->
  P s -> forM body l s = None.
Proof.
  revert s. induction l as [| i l IH]; intros s Hstep Hk Hfail Hs.
  - inversion Hk.
  - simpl. destruct (body i s) as [s1 |] eqn:Hb; [| reflexivity]. simpl.
    apply IH.
    + intros m s2 s3 Hm. apply Hstep. right. exact Hm.
    + apply elem_of_cons in Hk as [-> | Hk]; [| exact Hk].
      rewrite (Hfail s Hs) in Hb. discriminate.
    + exact Hfail.
    + apply (Hstep i s s1); [left | exact Hs | exact Hb].
Qed.

End Loops.

(** *** [calculateForces] on the array *)

Lemma resetAcc_pos (ps : list Particle) : pos <$> (resetAcc <$> ps) = pos <$> ps.
Proof. rewrite <- list_fmap_compose. reflexivity. Qed.

Lemma same_pos_lookup (ps qs : list Particle) (k : nat) (q : Particle) :
  pos <$> qs = pos <$> ps -> qs !! k = Some q ->
  exists p, ps !! k = Some p /\ x p = x q /\ y p = y q.
Proof.
  intros Heq Hq.
  assert (H : (pos <$> ps) !! k = Some (pos q))
    by (rewrite <- Heq, list_lookup_fmap, Hq; reflexivity).
  rewrite list_lookup_fmap in H.
  destruct (ps !! k) as [p |]; [| discriminate].
  exists p. split; [reflexivity |].
  simpl in H. injection H as Hx Hy. split; assumption.
Qed.

Lemma same_pos_length (ps qs : list Particle) :
  pos <$> qs = pos <$> ps -> length qs = length ps.
Proof.
  intros H. rewrite <- (length_fmap pos qs), H. apply length_fmap.
Qed.

(** An iteration of the inner loop leaves every position as it is. *)
Lemma forceStep_pos (i j : nat) (ps ps' : list Particle) :
  forceStep i j ps = Some ps' -> pos <$> ps' = pos <$> ps.
Proof.
  unfold forceStep.
  destruct (ps !! i) as [p1 |] eqn:Hi; [| discriminate]. simpl.
  destruct (ps !! j) as [p2 |] eqn:Hj; [| discriminate]. simpl.
  destruct (pairForce p1 p2) as [pp |] eqn:Hpp; [| discriminate]. simpl.
  intros [= <-].
  destruct (pairForce_pos p1 p2 pp Hpp) as [H1 H2].
  rewrite !list_fmap_insert, H1, H2.
  rewrite (list_insert_id (pos <$> ps) i)
    by (rewrite list_lookup_fmap, Hi; reflexivity).
  apply list_insert_id. rewrite list_lookup_fmap, Hj. reflexivity.
Qed.

(** An iteration of the inner loop with both indices in range has no value
    exactly when the two particles are at the same place. *)
Lemma forceStep_None (i j : nat) (ps : list Particle) (p1 p2 : Particle) :
  ps !! i = Some p1 -> ps !! j = Some p2 ->
  forceStep i j ps = None <-> x p1 = x p2 /\ y p1 = y p2.
Proof.
  intros Hi Hj. unfold forceStep. rewrite Hi, Hj. simpl.
  rewrite <- pairForce_None.
  destruct (pairForce p1 p2); simpl; split; congruence.
Qed.

Lemma inner_pos (n i : nat) (ps qs qs' : list Particle) :
  pos <$> qs = pos <$> ps -> inner n i qs = Some qs' ->
  pos <$> qs' = pos <$> ps.
Proof.
  intros Hq. unfold inner.
  apply (forM_preserves (fun l => pos <$> l = pos <$> ps)); [| exact Hq].
  intros j s1 s2 _ Hs1 Hstep. rewrite (forceStep_pos _ _ _ _ Hstep). exact Hs1.
Qed.

(** If no two particles share a position, [calculateForces] produces only
    finite numbers; positions are not touched. *)
Lemma calculateForces_total (ps : list Particle) :
  apart ps ->
  exists ps', calculateForces ps = Some ps' /\ pos <$> ps' = pos <$> ps.
Proof.
  intros Hapart. unfold calculateForces. cbv zeta.
  set (n := length (resetAcc <$> ps)).
  assert (Hn : n = length ps) by (subst n; apply length_fmap).
  apply (forM_total (fun l => pos <$> l = pos <$> ps)); [| apply resetAcc_pos].
  intros i s1 Hi Hs1. apply elem_of_seq in Hi. unfold inner.
  apply (forM_total (fun l => pos <$> l = pos <$> ps)); [| exact Hs1].
  intros j s2 Hj Hs2. apply elem_of_seq in Hj.
  pose proof (same_pos_length _ _ Hs2) as Hlen.
  destruct (lookup_lt_is_Some_2 s2 i) as [q1 Hq1]; [lia |].
  destruct (lookup_lt_is_Some_2 s2 j) as [q2 Hq2]; [lia |].
  destruct (forceStep i j s2) as [s3 |] eqn:Hstep.
  - exists s3. split; [reflexivity |].
    rewrite (forceStep_pos _ _ _ _ Hstep). exact Hs2.
  - exfalso. apply (forceStep_None i j s2 q1 q2 Hq1 Hq2) in Hstep.
    destruct (same_pos_lookup ps s2 i q1 Hs2 Hq1) as (p1 & Hp1 & Hx1 & Hy1).
    destruct (same_pos_lookup ps s2 j q2 Hs2 Hq2) as (p2 & Hp2 & Hx2 & Hy2).
    apply (Hapart i j p1 p2); [lia | exact Hp1 | exact Hp2 |].
    destruct Hstep. split; congruence.
Qed.

(** If two particles share a position, [calculateForces] divides by zero. *)
Lemma calculateForces_coincident (ps : list Particle) (i j : nat)
    (p q : Particle) :
  (i < j)%nat -> ps !! i = Some p -> ps !! j = Some q ->
  x p = x q -> y p = y q ->
  calculateForces ps = None.
Proof.
  intros Hij Hp Hq Hx Hy. unfold calculateForces. cbv zeta.
  set (n := length (resetAcc <$> ps)).
  assert (Hn : n = length ps) by (subst n; apply length_fmap).
  apply lookup_lt_Some in Hq as Hjn.
  apply (forM_fails (fun l => pos <$> l = pos <$> ps) _ _ i).
  - intros k s1 s2 _ Hs1 Hstep. apply (inner_pos n k ps s1 s2 Hs1 Hstep).
  - apply elem_of_seq. lia.
  - intros s1 Hs1. unfold inner.
    apply (forM_fails (fun l => pos <$> l = pos <$> ps) _ _ j).
    + intros k s2 s3 _ Hs2 Hstep.
      rewrite (forceStep_pos _ _ _ _ Hstep). exact Hs2.
    + apply elem_of_seq. lia.
    + intros s2 Hs2.
      pose proof (same_pos_length _ _ Hs2) as Hlen.
      destruct (lookup_lt_is_Some_2 s2 i) as [q1 Hq1]; [lia |].
      destruct (lookup_lt_is_Some_2 s2 j) as [q2 Hq2]; [lia |].
      apply (forceStep_None i j s2 q1 q2 Hq1 Hq2).
      destruct (same_pos_lookup ps s2 i q1 Hs2 Hq1) as (p1 & Hp1 & Hx1 & Hy1).
      destruct (same_pos_lookup ps s2 j q2 Hs2 Hq2) as (p2 & Hp2 & Hx2 & Hy2).
      split; congruence.
    + exact Hs1.
  - apply resetAcc_pos.
Qed.

Lemma apart_samples : apart [sampleA; sampleB].
Proof.
  intros i j p q Hij Hi Hj [Hx _].
  destruct i as [| i]; [| destruct j as [| [| j]]; [lia | lia | discriminate]].
  destruct j as [| [| j]]; [lia | | discriminate].
  injection Hi as <-. injection Hj as <-. simpl in Hx. lra.
Qed.

Lemma newton_third_law_witness :
  exists ps' p1' p2',
    forceStep 0 1 [sampleA; sampleB] = Some ps' /\
    ps' !! 0%nat = Some p1' /\ ps' !! 1%nat = Some p2' /\
    ax p1' - ax sampleA = - (ax p2' - ax sampleB) /\
    ay p1' - ay sampleA = - (ay p2' - ay sampleB).
Proof.
  destruct (forceStep 0 1 [sampleA; sampleB]) as [ps' |] eqn:Hstep.
  - destruct (newton_third_law [sampleA; sampleB] ps' 0 1 sampleA sampleB)
      as (p1' & p2' & fx & fy & H1 & H2 & _ & _ & Hx & Hy & _);
      [lia | reflexivity | reflexivity | exact Hstep |].
    exists ps', p1', p2'. repeat split; assumption.
  - exfalso.
    apply (forceStep_None 0 1 [sampleA; sampleB] sampleA sampleB) in Hstep;
      [| reflexivity | reflexivity].
    destruct Hstep as [Hx _]. simpl in Hx. lra.
Defined.

(** C3 (the code does not do this). Two particles at the same place:
    [dist] is 0 and the force computation divides [dx] and [dy] by it, so
    the frame has no finite accelerations, although the softened distance
    [r] is 20. The attraction block of [updateParticle], in the same
    situation (pointer exactly at the particle), skips the division. *)
Theorem coincident_particles_divide_by_zero :
  pairForce sampleA sampleC = None /\
  calculateForces [sampleA; sampleC] = None /\
  mouseAttraction (mkMouse (Some 100) (Some 100) 150) sampleA = Some sampleA.
Proof.
  split; [| split].
  - apply pairForce_None. split; reflexivity.
  - apply (calculateForces_coincident _ 0 1 sampleA sampleC);
      [lia | reflexivity | reflexivity | reflexivity | reflexivity].
  - unfold mouseAttraction. simpl.
    rewrite !Rminus_diag, Rmult_0_l, Rplus_0_l, sqrt_0.
    destruct (Rlt_dec 0 150) as [_ | Hn]; [| lra].
    destruct (Rgt_dec 0 0) as [Hgt | _]; [lra | reflexivity].
Qed.

(** *** The frame *)

Lemma connection_lines (p q : Particle) (cmd : DrawCmd) :
  In cmd (connection p q) ->
  exists c o, cmd = Line (x p) (y p) (x q) (y q) c o.
Proof.
  unfold connection. cbv zeta.
  destruct (Rlt_dec _ _); [| intros []].
  intros [<- | []]. eexists _, _. reflexivity.
Qed.

(** Every command of [drawConnections] is a line between two particles of
    the array it is given. *)
Lemma drawConnections_lines (ps : list Particle) (cmd : DrawCmd) :
  In cmd (drawConnections ps) ->
  exists i j p q c o, (i < j)%nat /\ ps !! i = Some p /\ ps !! j = Some q /\
    cmd = Line (x p) (y p) (x q) (y q) c o.
Proof.
  unfold drawConnections. cbv zeta. intros H.
  apply in_flat_map in H as (i & Hi & H).
  apply in_flat_map in H as (j & Hj & H).
  apply in_seq in Hj.
  destruct (ps !! i) as [p |] eqn:Hp; [| destruct H].
  destruct (ps !! j) as [q |] eqn:Hq; [| destruct H].
  destruct (connection_lines p q cmd H) as (c & o & ->).
  exists i, j, p, q, c, o. repeat split; try assumption; try reflexivity. lia.
Qed.

(** Every command of [drawParticle] is a glow or a core at the position of
    the particle it is given. *)
Lemma drawParticle_glyph (p : Particle) (time : R) (cmd : DrawCmd) :
  In cmd (drawParticle p time) ->
  exists r c o, cmd = Glow (x p) (y p) r c o \/ cmd = Core (x p) (y p) r c o.
Proof.
  unfold drawParticle. cbv zeta.
  intros [<- | [<- | []]]; eexists _, _, _; [left | right]; reflexivity.
Qed.

Lemma glyphs_positions (time : R) (ps : list Particle) (cmd : DrawCmd) :
  In cmd (glyphs time ps) ->
  exists k p r c o, ps !! k = Some p /\
    (cmd = Glow (x p) (y p) r c o \/ cmd = Core (x p) (y p) r c o).
Proof.
  unfold glyphs. intros H. apply in_flat_map in H as (p & Hp & H).
  apply list_elem_of_In, list_elem_of_lookup in Hp as [k Hk].
  destruct (drawParticle_glyph p time cmd H) as (r & c & o & Hc).
  exists k, p, r, c, o. split; assumption.
Qed.

(** The loop over the particles always completes; what it draws are the
    glyphs of the updated particles, each of which is [updateParticle] of the
    particle at the same index. *)
Lemma updateAndDraw_spec (w h : R) (m : Mouse) (time : R)
    (noise : nat -> R * R) (ps : list Particle) (k : nat) :
  exists r, updateAndDraw w h m time noise k ps = Some r /\
    r.2 = glyphs time r.1 /\
    Forall2 (fun ip p' =>
               updateParticle w h m (noise ip.1).1 (noise ip.1).2 ip.2 = Some p')
            (zip (seq k (length ps)) ps) r.1.
Proof.
  revert k. induction ps as [| p ps IH]; intros k; simpl.
  - exists ([], []). repeat split. constructor.
  - destruct (updateParticle_total w h m (noise k).1 (noise k).2 p) as (p' & Hp').
    rewrite Hp'. simpl.
    destruct (IH (S k)) as (r & -> & Hdraw & Hall). simpl.
    eexists. split; [reflexivity |]. simpl. split.
    + unfold glyphs in *. simpl. rewrite Hdraw. reflexivity.
    + constructor; [exact Hp' | exact Hall].
Qed.

(** C10. What one frame draws, in order: the cleared canvas, then the
    connection lines computed from the particles as they are when the frame
    starts (that is, as the previous frame left them), then the glyphs of the
    particles as they are after [calculateForces] and [updateParticle] of this
    frame. Every line joins the positions of two particles of the state before
    the frame; every glow and core is at the position of a particle of the
    state after the frame. *)
Theorem frame_ordering (time : R) (noise : nat -> R * R) (s s' : t)
    (out : list DrawCmd) :
  animate time noise s = Some (s', out) ->
  out = [ClearRect (canvas_width s) (canvas_height s)]
        ++ drawConnections (particles s) ++ glyphs time (particles s') /\
  (exists ps1, calculateForces (particles s) = Some ps1 /\
     Forall2 (fun ip p' =>
                updateParticle (canvas_width s) (canvas_height s) (mouse s)
                  (noise ip.1).1 (noise ip.1).2 ip.2 = Some p')
             (zip (seq 0 (length ps1)) ps1) (particles s')) /\
  (forall x1 y1 x2 y2 c o, In (Line x1 y1 x2 y2 c o) out ->
     exists i j p q, (i < j)%nat /\
       particles s !! i = Some p /\ particles s !! j = Some q /\
       (x1, y1) = pos p /\ (x2, y2) = pos q) /\
  (forall cx cy r c o,
     In (Glow cx cy r c o) out \/ In (Core cx cy r c o) out ->
     exists k p', particles s' !! k = Some p' /\ (cx, cy) = pos p') /\
  (forall k p', particles s' !! k = Some p' ->
     forall cmd, In cmd (drawParticle p' time) -> In cmd out).
Proof.
  unfold animate. cbv zeta.
  destruct (calculateForces (particles s)) as [ps1 |] eqn:Hf; [| discriminate].
  simpl.
  destruct (updateAndDraw_spec (canvas_width s) (canvas_height s) (mouse s)
              time noise ps1 0) as (r & -> & Hdraw & Hall).
  simpl. intros [= <- <-]. simpl. rewrite Hdraw.
  split; [reflexivity |].
  split; [exists ps1; split; [reflexivity | exact Hall] |].
  split; [| split].
  - intros x1 y1 x2 y2 c o [Hc | Hin]; [discriminate |].
    apply in_app_or in Hin as [Hin | Hin].
    + destruct (drawConnections_lines _ _ Hin)
        as (i & j & p & q & c' & o' & Hij & Hp & Hq & [= -> -> -> -> _ _]).
      exists i, j, p, q. repeat split; assumption.
    + destruct (glyphs_positions _ _ _ Hin)
        as (k & p & r' & c' & o' & _ & [Hc | Hc]); discriminate.
  - intros cx cy r' c o Hin.
    assert (Hg : exists cmd, In cmd (glyphs time r.1) /\
                   (cmd = Glow cx cy r' c o \/ cmd = Core cx cy r' c o)).
    { destruct Hin as [[Hc | Hin] | [Hc | Hin]]; try discriminate;
        apply in_app_or in Hin as [Hin | Hin];
        try (destruct (drawConnections_lines _ _ Hin)
               as (? & ? & ? & ? & ? & ? & _ & _ & _ & Hc); discriminate);
        eexists; (split; [exact Hin |]); [left | right]; reflexivity. }
    destruct Hg as (cmd & Hin' & Hcmd).
    destruct (glyphs_positions _ _ _ Hin')
      as (k & p & r2 & c2 & o2 & Hk & Hc).
    exists k, p. split; [exact Hk |]. unfold pos.
    destruct Hcmd as [-> | ->], Hc as [Hc | Hc]; try discriminate;
      injection Hc as -> -> _ _ _; reflexivity.
  - intros k p' Hk cmd Hin. right. apply in_or_app. right.
    unfold glyphs. apply in_flat_map. exists p'. split; [| exact Hin].
    apply list_elem_of_In, list_elem_of_lookup. exists k. exact Hk.
Qed.

(** If the particles are apart, the frame produces only finite numbers. *)
Lemma animate_total (time : R) (noise : nat -> R * R) (s : t) :
  apart (particles s) -> exists s' out, animate time noise s = Some (s', out).
Proof.
  intros Hap. unfold animate. cbv zeta.
  destruct (calculateForces_total _ Hap) as (ps1 & -> & _). simpl.
  destruct (updateAndDraw_spec (canvas_width s) (canvas_height s) (mouse s)
              time noise ps1 0) as (r & -> & _).
  simpl. eexists _, _. reflexivity.
Qed.

(** The force between two particles within the cutoff that are not at the
    same place. *)
Lemma pairForce_near (p1 p2 : Particle) :
  let dx := x p2 - x p1 in
  let dy := y p2 - y p1 in
  let dist := sqrt (dx * dx + dy * dy) in
  let forceMag := physics.coulombStrength * charge p1 * charge p2
                  / ((dist + physics.softening) * (dist + physics.softening))
                  * exp (- dist / physics.screeningLength) in
  0 < dist <= 200 ->
  pairForce p1 p2
  = Some (set_acc p1 (ax p1 - dx / dist * forceMag) (ay p1 - dy / dist * forceMag),
          set_acc p2 (ax p2 + dx / dist * forceMag) (ay p2 + dy / dist * forceMag)).
Proof.
  intros dx dy dist forceMag [Hpos Hle]. unfold pairForce. cbv zeta.
  fold dx dy. fold dist.
  destruct (Rgt_dec dist _) as [Hfar | _];
    [unfold physics.screeningLength in Hfar; lra |].
  rewrite (fdiv_Some (physics.coulombStrength * charge p1 * charge p2))
    by (apply softened_nonzero; lra).
  simpl. rewrite !fdiv_Some by lra. reflexivity.
Qed.

(** [calculateForces] on an array of two particles is one run of the body. *)
Lemma calculateForces_two (p q : Particle) :
  calculateForces [p; q]
  = pp ← pairForce (resetAcc p) (resetAcc q); Some [pp.1; pp.2].
Proof.
  unfold calculateForces, inner, forceStep. simpl.
  destruct (pairForce (resetAcc p) (resetAcc q)) as [pp |]; reflexivity.
Qed.

Lemma sample_distance :
  sqrt ((200 - 100) * (200 - 100) + (100 - 100) * (100 - 100)) = 100.
Proof.
  replace ((200 - 100) * (200 - 100) + (100 - 100) * (100 - 100))
    with (100 * 100) by lra.
  apply sqrt_sqr_nonneg. lra.
Qed.

Lemma sample_force_small :
  0 < 200 * 1 * 1 / ((100 + 20) * (100 + 20)) * exp (- (100) / 100) < 1.
Proof.
  pose proof (exp_pos (- (100) / 100)) as Hpos.
  assert (Hlt : exp (- (100) / 100) < 1).
  { rewrite <- exp_0. apply exp_increasing. lra. }
  revert Hpos Hlt. generalize (exp (- (100) / 100)). intros e Hpos Hlt.
  split; nra.
Qed.

(** A frame of the sample state, with both random values 0.5: the line
    between the two particles starts at [x = 100], where the first particle
    was, while its glyph is drawn to the right of it. *)
Lemma frame_ordering_witness :
  exists s' out pA',
    animate 0 (fun _ => (0.5, 0.5)) sampleState = Some (s', out) /\
    In (Line 100 100 200 100 purple ((1 - 100 / 150) * 0.3)) out /\
    particles s' !! 0%nat = Some pA' /\
    100 < x pA' /\
    (forall cmd, In cmd (drawParticle pA' 0) -> In cmd out).
Proof.
  destruct (animate_total 0 (fun _ => (0.5, 0.5)) sampleState apart_samples)
    as (s' & out & Hrun).
  destruct (frame_ordering 0 (fun _ => (0.5, 0.5)) sampleState s' out Hrun)
    as (Hout & (ps1 & Hcf & Hall) & _ & _ & Hglyph).
  pose proof sample_force_small as HF.
  simpl in Hcf. rewrite calculateForces_two in Hcf.
  rewrite pairForce_near in Hcf by (simpl; rewrite sample_distance; lra).
  simpl in Hcf. rewrite sample_distance in Hcf.
  unfold physics.coulombStrength, physics.softening, physics.screeningLength in Hcf.
  remember (200 * 1 * 1 / ((100 + 20) * (100 + 20)) * exp (- (100) / 100))
    as F eqn:HeqF.
  clear HeqF. injection Hcf as <-. simpl in Hall.
  destruct (particles s') as [| pA' rest] eqn:Hps; [inversion Hall |].
  apply Forall2_cons in Hall as [HA _]. simpl in HA.
  unfold updateParticle in HA.
  rewrite advance_free in HA; [| reflexivity |].
  - simpl in HA. rewrite withinWalls in HA.
    + injection HA as <-.
      exists s', out, (move (accelerate 0.5 0.5
                 (set_acc (resetAcc sampleA) (0 - (200 - 100) / 100 * F)
                                             (0 - (100 - 100) / 100 * F)))).
      split; [exact Hrun |]. split; [| split; [rewrite Hps; reflexivity | split]].
      * rewrite Hout. apply in_cons. apply in_or_app. left.
        unfold drawConnections, connection. simpl.
        replace ((100 - 200) * (100 - 200) + (100 - 100) * (100 - 100))
          with (100 * 100) by lra.
        rewrite sqrt_sqr_nonneg by lra.
        unfold config.connectionDistance.
        destruct (Rlt_dec 100 150) as [_ | Hn]; [| lra].
        destruct (Rlt_dec (1 * 1) 0) as [Hn | _]; [lra |].
        left. reflexivity.
      * simpl. unfold physics.brownianStrength, physics.damping. lra.
      * intros cmd Hin. exact (Hglyph 0%nat _ eq_refl cmd Hin).
    + simpl. unfold physics.brownianStrength, physics.damping. lra.
    + simpl. unfold physics.brownianStrength, physics.damping. lra.
  - unfold speed. simpl.
    unfold physics.brownianStrength, physics.damping, physics.maxVelocity.
    replace 10.0 with (sqrt (10 * 10)) by (rewrite sqrt_sqr_nonneg; lra).
    apply sqrt_le_1_alt. nra.
Defined.

(** *** Consequences for a whole frame *)

(** Two frames in a row: the lines of the second frame join the positions
    at which the first frame drew its glyphs. *)
Lemma two_frames (t1 t2 : R) (n1 n2 : nat -> R * R) (s0 s1 s2 : t)
    (out1 out2 : list DrawCmd) :
  animate t1 n1 s0 = Some (s1, out1) ->
  animate t2 n2 s1 = Some (s2, out2) ->
  out1 = [ClearRect (canvas_width s0) (canvas_height s0)]
         ++ drawConnections (particles s0) ++ glyphs t1 (particles s1) /\
  out2 = [ClearRect (canvas_width s1) (canvas_height s1)]
         ++ drawConnections (particles s1) ++ glyphs t2 (particles s2).
Proof.
  unfold animate. cbv zeta. intros H1 H2.
  destruct (calculateForces (particles s0)) as [q1 |]; [| discriminate].
  destruct (calculateForces (particles s1)) as [q2 |]; [| discriminate].
  simpl in H1, H2.
  destruct (updateAndDraw_spec (canvas_width s0) (canvas_height s0) (mouse s0)
              t1 n1 q1 0) as (r1 & Hr1 & Hd1 & _).
  destruct (updateAndDraw_spec (canvas_width s1) (canvas_height s1) (mouse s1)
              t2 n2 q2 0) as (r2 & Hr2 & Hd2 & _).
  rewrite Hr1 in H1. rewrite Hr2 in H2. simpl in H1, H2.
  injection H1 as <- <-. injection H2 as <- <-.
  simpl. rewrite Hd1, Hd2. split; reflexivity.
Qed.

End TensorNetworkAnimationProofs.

(** ** More on the forces of the particle field *)

Section ForceProofs.
Import TensorNetworkAnimation.

Lemma resetAcc_set_acc (p : Particle) (a1 a2 : R) :
  resetAcc (set_acc p a1 a2) = resetAcc p.
Proof. reflexivity. Qed.

Lemma forceStep_frozen (i j : nat) (ps ps' : list Particle) :
  forceStep i j ps = Some ps' -> resetAcc <$> ps' = resetAcc <$> ps.
Proof.
  unfold forceStep.
  destruct (ps !! i) as [p1 |] eqn:Hi; [| discriminate]. simpl.
  destruct (ps !! j) as [p2 |] eqn:Hj; [| discriminate]. simpl.
  destruct (pairForce p1 p2) as [pp |] eqn:Hpp; [| discriminate]. simpl.
  intros [= <-].
  destruct (pairForce_inv p1 p2 pp Hpp) as (fx & fy & ->). simpl.
  rewrite !list_fmap_insert, !resetAcc_set_acc.
  rewrite (list_insert_id (resetAcc <$> ps) i)
    by (rewrite list_lookup_fmap, Hi; reflexivity).
  apply list_insert_id. rewrite list_lookup_fmap, Hj. reflexivity.
Qed.

Lemma calculateForces_frozen (ps ps' : list Particle) :
  calculateForces ps = Some ps' -> resetAcc <$> ps' = resetAcc <$> ps.
Proof.
  unfold calculateForces. cbv zeta.
  apply (forM_preserves (fun l => resetAcc <$> l = resetAcc <$> ps)).
  - intros i s1 s2 _ Hs1. unfold inner.
    apply (forM_preserves (fun l => resetAcc <$> l = resetAcc <$> ps));
      [| exact Hs1].
    intros j s3 s4 _ Hs3 Hstep.
    rewrite (forceStep_frozen _ _ _ _ Hstep). exact Hs3.
  - rewrite <- list_fmap_compose. reflexivity.
Qed.

Lemma frozen_same (p p' : Particle) :
  resetAcc p' = resetAcc p -> p' = set_acc p (ax p') (ay p').
Proof.
  destruct p, p'. unfold resetAcc, set_acc. simpl.
  intros [= -> -> -> -> -> -> -> -> ->]. reflexivity.
Qed.

(** [calculateForces] writes accelerations and nothing else: the array keeps
    its length, and every particle comes back with its position, velocity,
    radius, colour, charge and pulse data as they were. *)
Theorem calculateForces_only_accelerations (ps ps' : list Particle) :
  calculateForces ps = Some ps' ->
  length ps' = length ps /\
  Forall2 (fun p p' => p' = set_acc p (ax p') (ay p')) ps ps'.
Proof.
  intros H. apply calculateForces_frozen in H.
  assert (Hlen : length ps' = length ps).
  { rewrite <- (length_fmap resetAcc ps'), H. apply length_fmap. }
  split; [exact Hlen |].
  apply Forall2_same_length_lookup. split; [symmetry; exact Hlen |].
  intros i p p' Hp Hp'. apply frozen_same.
  assert (Hi : (resetAcc <$> ps') !! i = (resetAcc <$> ps) !! i) by (rewrite H; reflexivity).
  rewrite !list_lookup_fmap, Hp, Hp' in Hi. simpl in Hi. congruence.
Qed.

Lemma calculateForces_only_accelerations_witness :
  exists ps', calculateForces [sampleA; sampleB] = Some ps' /\
    length ps' = 2%nat.
Proof.
  destruct (calculateForces_total [sampleA; sampleB] apart_samples)
    as (ps' & H & _).
  exists ps'. split; [exact H |].
  apply (calculateForces_only_accelerations _ _ H).
Defined.

(** [calculateForces] divides by zero exactly when two particles of the
    array are at the same place, whatever their distance to the others. *)
Theorem calculateForces_fails_iff_coincident (ps : list Particle) :
  calculateForces ps = None <->
  exists i j p q, (i < j)%nat /\ ps !! i = Some p /\ ps !! j = Some q /\
    x p = x q /\ y p = y q.
Proof.
  split.
  - intros Hnone.
    destruct (Classical_Prop.classic
                (exists i j p q, (i < j)%nat /\ ps !! i = Some p /\
                   ps !! j = Some q /\ x p = x q /\ y p = y q))
      as [Hex | Hno]; [exact Hex | exfalso].
    destruct (calculateForces_total ps) as (ps' & Hsome & _).
    + intros i j p q Hij Hp Hq [Hx Hy]. apply Hno.
      exists i, j, p, q. repeat split; assumption.
    + congruence.
  - intros (i & j & p & q & Hij & Hp & Hq & Hx & Hy).
    apply (calculateForces_coincident ps i j p q); assumption.
Qed.

Lemma forM_id {I S : Type} (body : I -> S -> option S) (l : list I) (s : S) :
  (forall i, i ∈ l -> body i s = Some s) -> forM body l s = Some s.
Proof.
  induction l as [| i l IH]; intros H; simpl; [reflexivity |].
  rewrite (H i) by left. simpl. apply IH.
  intros k Hk. apply H. right. exact Hk.
Qed.

Lemma pairForce_far (p1 p2 : Particle) :
  distance p1 p2 > 200 -> pairForce p1 p2 = Some (p1, p2).
Proof.
  unfold distance, pairForce. cbv zeta. intros Hfar.
  replace ((x p2 - x p1) * (x p2 - x p1) + (y p2 - y p1) * (y p2 - y p1))
    with ((x p1 - x p2) * (x p1 - x p2) + (y p1 - y p2) * (y p1 - y p2)) by ring.
  destruct (Rgt_dec _ _) as [_ | Hn]; [reflexivity |].
  unfold physics.screeningLength in Hn. lra.
Qed.

(** The cutoff: when every two particles are more than 200 pixels (twice
    the screening length) apart, [calculateForces] leaves every acceleration
    at zero. *)
Theorem calculateForces_beyond_cutoff (ps : list Particle) :
  (forall i j p q, (i < j)%nat -> ps !! i = Some p -> ps !! j = Some q ->
     distance p q > 200) ->
  calculateForces ps = Some (resetAcc <$> ps).
Proof.
  intros Hfar. unfold calculateForces. cbv zeta.
  rewrite length_fmap.
  apply forM_id. intros i Hi. apply elem_of_seq in Hi.
  unfold inner. apply forM_id. intros j Hj. apply elem_of_seq in Hj.
  destruct (lookup_lt_is_Some_2 ps i) as [p Hp]; [lia |].
  destruct (lookup_lt_is_Some_2 ps j) as [q Hq]; [lia |].
  unfold forceStep. rewrite !list_lookup_fmap, Hp, Hq. simpl.
  rewrite pairForce_far by (apply (Hfar i j p q); [lia | exact Hp | exact Hq]).
  simpl. rewrite (list_insert_id _ i)
    by (rewrite list_lookup_fmap, Hp; reflexivity).
  rewrite list_insert_id by (rewrite list_lookup_fmap, Hq; reflexivity).
  reflexivity.
Qed.

Lemma calculateForces_beyond_cutoff_witness :
  calculateForces [sampleA; sampleFar] = Some [sampleA; sampleFar].
Proof.
  apply (calculateForces_beyond_cutoff [sampleA; sampleFar]).
  intros i j p q Hij Hi Hj.
  destruct i as [| i]; [| destruct j as [| [| j]]; [lia | lia | discriminate]].
  destruct j as [| [| j]]; [lia | | discriminate].
  injection Hi as <-. injection Hj as <-. unfold distance. simpl.
  replace ((100 - 500) * (100 - 500) + (100 - 100) * (100 - 100))
    with (400 * 400) by lra.
  rewrite sqrt_sqr_nonneg by lra. lra.
Defined.

Lemma exp_nonpos (u : R) : u <= 0 -> 0 < exp u <= 1.
Proof.
  intros Hu. split; [apply exp_pos |].
  destruct (Rle_lt_or_eq_dec u 0 Hu) as [Hlt | ->].
  - left. rewrite <- exp_0. apply exp_increasing. exact Hlt.
  - rewrite exp_0. lra.
Qed.

(** What the body of the loop adds to the first particle, for two
    particles that are not at the same place: either nothing (beyond the
    cutoff) or the force along the line between them. *)
Lemma pairForce_cases (p1 p2 : Particle) (pp : Particle * Particle) :
  pairForce p1 p2 = Some pp ->
  let dx := x p2 - x p1 in
  let dy := y p2 - y p1 in
  let dist := sqrt (dx * dx + dy * dy) in
  let forceMag := physics.coulombStrength * charge p1 * charge p2
                  / ((dist + physics.softening) * (dist + physics.softening))
                  * exp (- dist / physics.screeningLength) in
  (dist > 200 /\ pp = (p1, p2)) \/
  (0 < dist <= 200 /\
   pp = (set_acc p1 (ax p1 - dx / dist * forceMag) (ay p1 - dy / dist * forceMag),
         set_acc p2 (ax p2 + dx / dist * forceMag) (ay p2 + dy / dist * forceMag))).
Proof.
  intros H dx dy dist forceMag.
  destruct (Rgt_dec dist 200) as [Hfar | Hnear].
  - left. split; [exact Hfar |].
    pose proof H as H'. unfold pairForce in H'. cbv zeta in H'.
    fold dx dy in H'. fold dist in H'.
    destruct (Rgt_dec dist _) as [_ | Hn];
      [congruence | unfold physics.screeningLength in Hn; lra].
  - right.
    assert (Hpos : 0 < dist).
    { destruct (Req_dec dist 0) as [Hz | Hnz].
      - apply sqrt_sum2_zero in Hz. subst dx dy.
        assert (Hnone : pairForce p1 p2 = None)
          by (apply pairForce_None; lra).
        congruence.
      - pose proof (sqrt_pos (dx * dx + dy * dy)). fold dist in H0. lra. }
    split; [lra |].
    pose proof (pairForce_near p1 p2) as Hn. cbv zeta in Hn.
    fold dx dy in Hn. fold dist in Hn. fold forceMag in Hn.
    rewrite Hn in H by lra. congruence.
Qed.

(** The softening bounds the force: whatever the distance, one pair changes
    the acceleration of a particle by at most [0.5 * |q1 * q2|] in length
    (200 / 20^2, reached in the limit of zero distance). *)
Theorem pair_force_bounded (p1 p2 : Particle) (pp : Particle * Particle) :
  pairForce p1 p2 = Some pp ->
  let cx := ax pp.1 - ax p1 in
  let cy := ay pp.1 - ay p1 in
  sqrt (cx * cx + cy * cy) <= 0.5 * Rabs (charge p1 * charge p2).
Proof.
  intros H cx cy.
  pose proof (Rabs_pos (charge p1 * charge p2)) as Hq.
  destruct (pairForce_cases p1 p2 pp H) as [[_ ->] | [[Hpos Hle] ->]];
    subst cx cy; simpl.
  - rewrite !Rminus_diag, Rmult_0_l, Rplus_0_l, sqrt_0. lra.
  - set (dx := x p2 - x p1) in *. set (dy := y p2 - y p1) in *.
    set (dist := sqrt (dx * dx + dy * dy)) in *.
    set (q := charge p1 * charge p2) in *.
    assert (Hsq : dist * dist = dx * dx + dy * dy)
      by (apply sqrt_norm_sqr; nra).
    destruct (exp_nonpos (- dist / physics.screeningLength)) as [He0 He1];
      [unfold physics.screeningLength; lra |].
    set (e := exp (- dist / physics.screeningLength)) in *.
    unfold physics.coulombStrength, physics.softening.
    set (F := 200 * charge p1 * charge p2 / ((dist + 20) * (dist + 20)) * e).
    replace ((ax p1 - dx / dist * F - ax p1) * (ax p1 - dx / dist * F - ax p1)
             + (ay p1 - dy / dist * F - ay p1) * (ay p1 - dy / dist * F - ay p1))
      with (F * F).
    + replace (F * F) with (F²) by reflexivity. rewrite sqrt_Rsqr_abs.
      subst F. replace (200 * charge p1 * charge p2) with (200 * q)
        by (subst q; ring).
      unfold Rdiv. rewrite !Rabs_mult.
      rewrite (Rabs_pos_eq 200) by lra.
      rewrite (Rabs_pos_eq e) by lra.
      assert (Hr : 400 <= (dist + 20) * (dist + 20)) by nra.
      assert (Hinv : 0 < / ((dist + 20) * (dist + 20)) <= / 400).
      { split; [apply Rinv_0_lt_compat; lra |].
        apply Rinv_le_contravar; lra. }
      rewrite (Rabs_pos_eq (/ _)) by lra.
      assert (Hprod : / ((dist + 20) * (dist + 20)) * e <= / 400).
      { replace (/ 400) with (/ 400 * 1) by lra.
        apply Rmult_le_compat; lra. }
      replace (200 * Rabs q * / ((dist + 20) * (dist + 20)) * e)
        with (200 * Rabs q * (/ ((dist + 20) * (dist + 20)) * e)) by ring.
      replace (0.5 * Rabs q) with (200 * Rabs q * / 400) by lra.
      apply Rmult_le_compat_l; [lra | exact Hprod].
    + transitivity ((dx * dx + dy * dy) / (dist * dist) * (F * F)).
      * rewrite <- Hsq. field. lra.
      * field. lra.
Qed.

Lemma pair_force_bounded_witness :
  exists pp, pairForce sampleA sampleB = Some pp /\
    sqrt ((ax pp.1 - ax sampleA) * (ax pp.1 - ax sampleA)
          + (ay pp.1 - ay sampleA) * (ay pp.1 - ay sampleA))
    <= 0.5 * Rabs (charge sampleA * charge sampleB).
Proof.
  destruct (pairForce sampleA sampleB) as [pp |] eqn:H.
  - exists pp. split; [reflexivity |].
    apply (pair_force_bounded sampleA sampleB pp H).
  - exfalso. apply pairForce_None in H. destruct H as [Hx _].
    simpl in Hx. lra.
Defined.

(** The sign convention: within the cutoff, two particles whose charges
    have the same sign are pushed apart and two particles whose charges have
    opposite signs are pulled together; [w1] and [w2] are the components of
    the two contributions along the line from the first particle to the
    second. *)
Theorem like_charges_repel (p1 p2 : Particle) (pp : Particle * Particle) :
  pairForce p1 p2 = Some pp ->
  distance p1 p2 <= 200 ->
  let dx := x p2 - x p1 in
  let dy := y p2 - y p1 in
  let w1 := (ax pp.1 - ax p1) * dx + (ay pp.1 - ay p1) * dy in
  let w2 := (ax pp.2 - ax p2) * dx + (ay pp.2 - ay p2) * dy in
  w2 = - w1 /\
  (charge p1 * charge p2 > 0 -> w1 < 0) /\
  (charge p1 * charge p2 < 0 -> w1 > 0) /\
  (charge p1 * charge p2 = 0 -> w1 = 0).
Proof.
  intros H Hnear dx dy w1 w2.
  assert (Hd : distance p1 p2 = sqrt (dx * dx + dy * dy)).
  { unfold distance. f_equal. subst dx dy. ring. }
  destruct (pairForce_cases p1 p2 pp H) as [[Hfar _] | [[Hpos Hle] Hpp]].
  - fold dx dy in Hfar. lra.
  - fold dx dy in Hpos, Hle, Hpp.
    set (dist := sqrt (dx * dx + dy * dy)) in *.
    assert (Hsq : dist * dist = dx * dx + dy * dy)
      by (apply sqrt_norm_sqr; nra).
    destruct (exp_nonpos (- dist / physics.screeningLength)) as [He0 _];
      [unfold physics.screeningLength; lra |].
    set (e := exp (- dist / physics.screeningLength)) in *.
    unfold physics.coulombStrength, physics.softening in Hpp.
    set (q := charge p1 * charge p2).
    assert (Hr : 0 < / ((dist + 20) * (dist + 20)))
      by (apply Rinv_0_lt_compat; nra).
    set (g := 200 * / ((dist + 20) * (dist + 20)) * e * dist).
    assert (Hg : 0 < g).
    { subst g. repeat apply Rmult_lt_0_compat; lra. }
    assert (Hw1 : w1 = - (q * g)).
    { subst w1 g q. rewrite Hpp. simpl.
      transitivity (- ((dx * dx + dy * dy) / dist
                       * (200 * charge p1 * charge p2
                          / ((dist + 20) * (dist + 20)) * e))).
      - field. split; lra.
      - rewrite <- Hsq. field. split; lra. }
    assert (Hw2 : w2 = q * g).
    { subst w2 g q. rewrite Hpp. simpl.
      transitivity ((dx * dx + dy * dy) / dist
                    * (200 * charge p1 * charge p2
                       / ((dist + 20) * (dist + 20)) * e)).
      - field. split; lra.
      - rewrite <- Hsq. field. split; lra. }
    rewrite Hw1, Hw2. fold q.
    repeat split; intros; nra.
Qed.

Lemma like_charges_repel_witness :
  exists pp, pairForce sampleA sampleB = Some pp /\
    (ax pp.1 - ax sampleA) * (x sampleB - x sampleA)
    + (ay pp.1 - ay sampleA) * (y sampleB - y sampleA) < 0.
Proof.
  destruct (pairForce sampleA sampleB) as [pp |] eqn:H.
  - exists pp. split; [reflexivity |].
    destruct (like_charges_repel sampleA sampleB pp H) as (_ & Hrep & _).
    + unfold distance. simpl.
      replace ((100 - 200) * (100 - 200) + (100 - 100) * (100 - 100))
        with (100 * 100) by lra.
      rewrite sqrt_sqr_nonneg by lra. lra.
    + apply Hrep. simpl. lra.
  - exfalso. apply pairForce_None in H. destruct H as [Hx _].
    simpl in Hx. lra.
Defined.

End ForceProofs.

(** ** More on drawing *)

Section DrawingProofs.
Import TensorNetworkAnimation.

Lemma connection_near (p q : Particle) :
  distance p q < 150 ->
  connection p q
  = [Line (x p) (y p) (x q) (y q)
          (if Rlt_dec (charge p * charge q) 0 then cyan else purple)
          ((1 - distance p q / 150) * 0.3)].
Proof.
  unfold distance, connection. cbv zeta. unfold config.connectionDistance.
  intros H. destruct (Rlt_dec _ 150) as [_ | Hn]; [reflexivity | contradiction].
Qed.

Lemma connection_far (p q : Particle) :
  ~ distance p q < 150 -> connection p q = [].
Proof.
  unfold distance, connection. cbv zeta. unfold config.connectionDistance.
  intros H. destruct (Rlt_dec _ 150) as [Hlt | _]; [contradiction | reflexivity].
Qed.

(** What [drawConnections] draws: a line for every pair [i < j] of
    particles less than 150 pixels apart and nothing else; the line is
    cyan when the charges have opposite signs and purple otherwise, and its
    opacity [(1 - distance / 150) * 0.3] is above 0 and at most 0.3. *)
Theorem drawConnections_spec (ps : list Particle) (cmd : DrawCmd) :
  In cmd (drawConnections ps) <->
  exists i j p q, (i < j)%nat /\ ps !! i = Some p /\ ps !! j = Some q /\
    distance p q < 150 /\
    0 < (1 - distance p q / 150) * 0.3 <= 0.3 /\
    cmd = Line (x p) (y p) (x q) (y q)
               (if Rlt_dec (charge p * charge q) 0 then cyan else purple)
               ((1 - distance p q / 150) * 0.3).
Proof.
  unfold drawConnections. cbv zeta. split.
  - intros H.
    apply in_flat_map in H as (i & Hi & H).
    apply in_flat_map in H as (j & Hj & H).
    apply in_seq in Hj.
    destruct (ps !! i) as [p |] eqn:Hp; [| destruct H].
    destruct (ps !! j) as [q |] eqn:Hq; [| destruct H].
    destruct (Rlt_dec (distance p q) 150) as [Hd | Hd].
    + rewrite (connection_near p q Hd) in H. destruct H as [<- | []].
      exists i, j, p, q.
      assert (0 <= distance p q) by apply sqrt_pos.
      repeat split; try assumption; try reflexivity; lia || lra.
    + rewrite (connection_far p q Hd) in H. destruct H.
  - intros (i & j & p & q & Hij & Hp & Hq & Hd & _ & ->).
    apply lookup_lt_Some in Hq as Hj.
    apply in_flat_map. exists i. split; [apply in_seq; lia |].
    apply in_flat_map. exists j. split; [apply in_seq; lia |].
    rewrite Hp, Hq, (connection_near p q Hd). left. reflexivity.
Qed.

(** The pulse: whatever the time, the core of a particle is drawn with a
    radius between 0.4 and 1 times its base radius and an opacity between
    0.68 and 0.8, each to within rounding (a relative 1e-12), under a glow
    of three times the radius and half the opacity, both at the position of
    the particle and in its colour. *)
Theorem drawParticle_pulse (p : Particle) (time : R) :
  exists r o,
    drawParticle p time
    = [Glow (x p) (y p) (r * 3) (if isCyan p then cyan else purple) (o * 0.5);
       Core (x p) (y p) r (if isCyan p then cyan else purple) o] /\
    0.68 * (1 - 1e-12) <= o <= 0.8 * (1 + 1e-12) /\
    (0 <= baseRadius p ->
     0.4 * (1 - 1e-12) * baseRadius p <= r <= (1 + 1e-12) * baseRadius p).
Proof.
  unfold drawParticle. cbv zeta.
  pose proof (SIN_bound (time * 0.002 + pulseOffset p)) as [Hlo Hhi].
  set (sn := sin (time * 0.002 + pulseOffset p)) in *.
  eexists _, _. split; [reflexivity |].
  split; [lra |]. intros Hb. nra.
Qed.

Lemma drawParticle_pulse_witness :
  exists r o,
    drawParticle sampleA 0
    = [Glow 100 100 (r * 3) cyan (o * 0.5); Core 100 100 r cyan o] /\
    0.68 * (1 - 1e-12) <= o <= 0.8 * (1 + 1e-12) /\
    0.4 * (1 - 1e-12) * 3 <= r <= (1 + 1e-12) * 3.
Proof.
  destruct (drawParticle_pulse sampleA 0) as (r & o & H & Ho & Hr).
  exists r, o. split; [exact H |]. split; [exact Ho |].
  apply Hr. simpl. lra.
Defined.

End DrawingProofs.

(** ** More on the motion of a particle *)

Section MotionProofs.
Import TensorNetworkAnimation.

Lemma mouseAttraction_identity (m : Mouse) (p p' : Particle) :
  mouseAttraction m p = Some p' -> resetAcc p' = resetAcc p.
Proof.
  unfold mouseAttraction.
  destruct (mouse_x m) as [mx |]; [| congruence].
  destruct (mouse_y m) as [my |]; [| congruence].
  cbv zeta.
  destruct (Rlt_dec _ _) as [Hlt |]; [| congruence].
  destruct (Rgt_dec _ _) as [Hgt |]; [| congruence].
  rewrite !fdiv_Some by lra. simpl.
  intros [= <-]. reflexivity.
Qed.

Lemma identity_of_frozen (p p' : Particle) :
  resetAcc p' = resetAcc p -> identity_of p' = identity_of p.
Proof.
  intros H. change (identity_of (resetAcc p') = identity_of (resetAcc p)).
  rewrite H. reflexivity.
Qed.

Lemma clampVelocity_identity (p p' : Particle) :
  clampVelocity p = Some p' ->
  identity_of p' = identity_of p /\ x p' = x p /\ y p' = y p.
Proof.
  unfold clampVelocity.
  destruct (Rgt_dec _ _) as [Hgt |]; [| intros [= <-]; repeat split; reflexivity].
  pose proof (speed_nonneg p) as Hs. unfold physics.maxVelocity in Hgt.
  rewrite !fdiv_Some by lra. simpl. intros [= <-]. repeat split; reflexivity.
Qed.

Lemma bounce_identity (w h : R) (p : Particle) :
  identity_of (bounce w h p) = identity_of p.
Proof.
  unfold bounce, bounceY, bounceX.
  destruct (Rlt_dec (x p) _); [| destruct (Rgt_dec (x p) _)];
    simpl; (destruct (Rlt_dec _ _); [| destruct (Rgt_dec _ _)]); reflexivity.
Qed.

Lemma updateParticle_identity (w h : R) (m : Mouse) (u1 u2 : R)
    (p p' : Particle) :
  updateParticle w h m u1 u2 p = Some p' -> identity_of p' = identity_of p.
Proof.
  unfold updateParticle, advance.
  destruct (mouseAttraction m p) as [p1 |] eqn:H1; [| discriminate]. simpl.
  destruct (clampVelocity (accelerate u1 u2 p1)) as [p2 |] eqn:H2;
    [| discriminate].
  simpl. intros [= <-].
  rewrite bounce_identity.
  destruct (clampVelocity_identity _ _ H2) as [Hid _].
  transitivity (identity_of p2); [reflexivity |].
  rewrite Hid. transitivity (identity_of p1); [reflexivity |].
  apply identity_of_frozen, (mouseAttraction_identity m). exact H1.
Qed.

Lemma bounce_inside_x (w h : R) (p : Particle) :
  2 * radius p <= w -> radius p <= x (bounce w h p) <= w - radius p.
Proof.
  intros Hw. unfold bounce.
  destruct (bounceY_fields h (bounceX w p)) as (-> & _ & _).
  unfold bounceX.
  destruct (Rlt_dec (x p) _); [simpl; lra |].
  destruct (Rgt_dec (x p) _); simpl; lra.
Qed.

Lemma bounce_inside_y (w h : R) (p : Particle) :
  2 * radius p <= h -> radius p <= y (bounce w h p) <= h - radius p.
Proof.
  intros Hh. unfold bounce, bounceY.
  destruct (bounceX_fields w p) as (Hy & _ & Hr). rewrite Hy, Hr.
  destruct (Rlt_dec (y p) _); [simpl; rewrite ?Hr; lra |].
  destruct (Rgt_dec (y p) _); simpl; rewrite ?Hr, ?Hy; lra.
Qed.

(** After every update a particle is inside the walls along each axis on
    which the canvas is at least as wide as the particle, and it is still
    the same particle: radius, colour, charge and pulse data are as before. *)
Theorem updateParticle_inside_walls (w h : R) (m : Mouse) (u1 u2 : R)
    (p : Particle) :
  exists p', updateParticle w h m u1 u2 p = Some p' /\
    identity_of p' = identity_of p /\
    (2 * radius p <= w -> radius p <= x p' <= w - radius p) /\
    (2 * radius p <= h -> radius p <= y p' <= h - radius p).
Proof.
  destruct (advance_total m u1 u2 p) as (q & Hq & _ & Hr).
  assert (Hup : updateParticle w h m u1 u2 p = Some (bounce w h q))
    by (unfold updateParticle; rewrite Hq; reflexivity).
  exists (bounce w h q). split; [exact Hup |].
  split; [apply (updateParticle_identity w h m u1 u2), Hup |].
  rewrite <- Hr. split; [apply bounce_inside_x | apply bounce_inside_y].
Qed.

(** A canvas narrower than the particle: every update leaves the particle
    on one of the two walls, [x = radius] or [x = width - radius], both
    outside the interval between them, and reverses its horizontal
    velocity; [q] is the particle after the move. *)
Theorem narrow_canvas_pins (w h : R) (m : Mouse) (u1 u2 : R) (p : Particle) :
  w < 2 * radius p ->
  exists q p', advance m u1 u2 p = Some q /\
    updateParticle w h m u1 u2 p = Some p' /\
    (x p' = radius p \/ x p' = w - radius p) /\
    w - radius p < radius p /\
    vx p' = vx q * -0.9.
Proof.
  intros Hw.
  destruct (advance_total m u1 u2 p) as (q & Hq & _ & Hr).
  exists q, (bounce w h q). split; [exact Hq |].
  split; [unfold updateParticle; rewrite Hq; reflexivity |].
  unfold bounce.
  destruct (bounceY_fields h (bounceX w q)) as (-> & -> & _).
  rewrite <- Hr. unfold bounceX.
  destruct (Rlt_dec (x q) _) as [Hlo | Hlo]; simpl.
  - repeat split; [left; reflexivity | lra].
  - destruct (Rgt_dec (x q) _) as [Hhi | Hhi]; simpl.
    + repeat split; [right; reflexivity | lra].
    + exfalso. lra.
Qed.

Lemma narrow_canvas_pins_witness :
  exists p', updateParticle 0 0 (mkMouse None None 150) 0.5 0.5 sampleA
             = Some p' /\
    (x p' = 3 \/ x p' = 0 - 3).
Proof.
  destruct (narrow_canvas_pins 0 0 (mkMouse None None 150) 0.5 0.5 sampleA)
    as (q & p' & _ & H & Hx & _).
  - simpl. lra.
  - exists p'. split; [exact H | exact Hx].
Defined.

End MotionProofs.

(** ** Runs of frames and the creation of the particles *)

Section RunProofs.
Import TensorNetworkAnimation.

Lemma updateParticle_settled (w h : R) (m : Mouse) (u1 u2 : R)
    (p p' : Particle) :
  updateParticle w h m u1 u2 p = Some p' ->
  identity_of p' = identity_of p /\ settled w h p'.
Proof.
  intros H. pose proof (updateParticle_identity w h m u1 u2 p p' H) as Hid.
  split; [exact Hid |].
  assert (Hr : radius p' = radius p) by (injection Hid; congruence).
  unfold updateParticle in H.
  destruct (advance_total m u1 u2 p) as (q & Hq & Hs & Hrq).
  rewrite Hq in H. simpl in H. injection H as <-.
  unfold settled. rewrite Hr, <- Hrq. split; [| split].
  - pose proof (bounce_speed w h q). unfold physics.maxVelocity in *. lra.
  - apply bounce_inside_x.
  - apply bounce_inside_y.
Qed.

Lemma updateAndDraw_each (w h : R) (m : Mouse) (time : R)
    (noise : nat -> R * R) (k : nat) (ps : list Particle)
    (r : list Particle * list DrawCmd) :
  updateAndDraw w h m time noise k ps = Some r ->
  Forall2 (fun p p' => identity_of p' = identity_of p /\ settled w h p') ps r.1.
Proof.
  revert k r. induction ps as [| p ps IH]; intros k r; simpl.
  - intros [= <-]. constructor.
  - destruct (updateParticle w h m (noise k).1 (noise k).2 p) as [p' |] eqn:Hp;
      [| discriminate]. simpl.
    destruct (updateAndDraw w h m time noise (S k) ps) as [r' |] eqn:Hr;
      [| discriminate]. simpl.
    intros [= <-]. simpl. constructor.
    + apply (updateParticle_settled w h m _ _ p p' Hp).
    + apply (IH (S k) r' Hr).
Qed.

Lemma Forall2_identity (w h : R) (ps qs : list Particle) :
  Forall2 (fun p p' => identity_of p' = identity_of p /\ settled w h p') ps qs ->
  identity_of <$> qs = identity_of <$> ps /\ Forall (settled w h) qs.
Proof.
  induction 1 as [| p q ps qs [Hid Hs] _ [IH1 IH2]]; simpl.
  - split; [reflexivity | constructor].
  - split; [f_equal; assumption | constructor; assumption].
Qed.

Lemma frozen_identity (ps qs : list Particle) :
  resetAcc <$> qs = resetAcc <$> ps -> identity_of <$> qs = identity_of <$> ps.
Proof.
  intros H.
  assert (Hc : forall l : list Particle,
             identity_of <$> l = identity_of <$> (resetAcc <$> l)).
  { intros l. rewrite <- list_fmap_compose. reflexivity. }
  rewrite (Hc qs), (Hc ps), H. reflexivity.
Qed.

(** One frame keeps the canvas, the pointer and the identity of every
    particle, and leaves every particle settled. *)
Lemma frame_invariants (f : R * (nat -> R * R)) (s s' : t) :
  frame f s = Some s' ->
  canvas_width s' = canvas_width s /\ canvas_height s' = canvas_height s /\
  mouse s' = mouse s /\
  identity_of <$> particles s' = identity_of <$> particles s /\
  Forall (settled (canvas_width s) (canvas_height s)) (particles s').
Proof.
  unfold frame, animate. cbv zeta.
  destruct (calculateForces (particles s)) as [ps1 |] eqn:Hf; [| discriminate].
  simpl.
  destruct (updateAndDraw _ _ _ _ _ _ ps1) as [r |] eqn:Hu; [| discriminate].
  simpl. intros [= <-]. simpl.
  destruct (Forall2_identity _ _ _ _ (updateAndDraw_each _ _ _ _ _ _ _ _ Hu))
    as [Hid Hall].
  repeat split; try reflexivity; [| exact Hall].
  rewrite Hid. apply frozen_identity, calculateForces_frozen, Hf.
Qed.

(** The invariants of the simulation: after any run of one or more frames
    that produces only finite numbers, the array holds the same particles
    (as many as before, each with its radius, colour, charge and pulse
    data), every particle has a speed of at most [maxVelocity] to within
    rounding (a relative 1e-12) and is inside the walls along each axis on
    which the canvas is wide enough for it, and the canvas and the pointer
    are as they were. *)
Theorem run_invariants (fs : list (R * (nat -> R * R))) (s s' : t) :
  fs <> [] ->
  run fs s = Some s' ->
  canvas_width s' = canvas_width s /\ canvas_height s' = canvas_height s /\
  mouse s' = mouse s /\
  length (particles s') = length (particles s) /\
  identity_of <$> particles s' = identity_of <$> particles s /\
  Forall (settled (canvas_width s) (canvas_height s)) (particles s').
Proof.
  revert s. induction fs as [| f fs IH]; intros s Hne; [contradiction |].
  unfold run. simpl.
  destruct (frame f s) as [s1 |] eqn:Hf; [| discriminate]. simpl.
  destruct (frame_invariants f s s1 Hf) as (Hw & Hh & Hm & Hid & Hall).
  destruct fs as [| f' fs'].
  - simpl. intros [= <-].
    repeat split; try assumption.
    rewrite <- (length_fmap identity_of (particles s1)), Hid.
    apply length_fmap.
  - intros Hrun.
    destruct (IH s1) as (Hw' & Hh' & Hm' & Hlen' & Hid' & Hall');
      [discriminate | exact Hrun |].
    rewrite Hw, Hh in Hall'.
    repeat split; try congruence.
    rewrite Hlen', <- (length_fmap identity_of (particles s1)), Hid.
    apply length_fmap.
Qed.

Lemma run_invariants_witness :
  exists s', run [(0, fun _ => (0.5, 0.5))] sampleState = Some s' /\
    length (particles s') = 2%nat /\
    Forall (settled 800 600) (particles s').
Proof.
  destruct (animate_total 0 (fun _ => (0.5, 0.5)) sampleState apart_samples)
    as (s' & out & Hrun).
  assert (H : run [(0, fun _ : nat => (0.5, 0.5))] sampleState = Some s').
  { unfold run, frame. simpl. rewrite Hrun. reflexivity. }
  exists s'. split; [exact H |].
  destruct (run_invariants [(0, fun _ : nat => (0.5, 0.5))] sampleState s')
    as (_ & _ & _ & Hlen & _ & Hall); [discriminate | exact H |].
  split; [exact Hlen | exact Hall].
Defined.

Lemma createParticle_fresh (w h : R) (rand : nat -> R) (i : nat) :
  (forall k, 0 <= rand k < 1) -> fresh w h (createParticle w h rand i).
Proof.
  intros Hr. unfold fresh, createParticle. cbv zeta.
  unfold config.particleRadius_max, config.particleRadius_min,
    config.particleSpeed.
  pose proof (Hr (7 * i)%nat) as H0.
  pose proof (Hr (7 * i + 1)%nat) as H1.
  pose proof (Hr (7 * i + 2)%nat) as H2.
  pose proof (Hr (7 * i + 3)%nat) as H3.
  pose proof (Hr (7 * i + 4)%nat) as H4.
  pose proof (Hr (7 * i + 6)%nat) as H6.
  pose proof PI_RGT_0 as Hpi.
  set (u0 := rand (7 * i)%nat) in *.
  set (u1 := rand (7 * i + 1)%nat) in *.
  set (u2 := rand (7 * i + 2)%nat) in *.
  set (u3 := rand (7 * i + 3)%nat) in *.
  set (u4 := rand (7 * i + 4)%nat) in *.
  set (u6 := rand (7 * i + 6)%nat) in *.
  simpl.
  split; [lra |]. split; [reflexivity |].
  split; [reflexivity |]. split; [reflexivity |].
  split; [lra |]. split; [lra |].
  split; [destruct (Rgt_dec _ 0.5); [left | right]; split; reflexivity |].
  split; [nra |].
  split; intros Hwide; nra.
Qed.

(** A resize throws the old particles away and creates new ones: whatever
    the array held, it now holds exactly [particleCount] = 150 particles,
    each with a radius in [3, 4], zero acceleration, velocity components in
    [-0.25, 0.25), charge +1 for cyan and -1 for purple, and a position
    between the walls of the new canvas where it is wide enough (not left
    of the left wall or above the upper one, and beyond the opposite wall
    by a relative 1e-12 at most); the pointer is kept. *)
Theorem resize_regenerates (innerWidth innerHeight : R) (rand : nat -> R)
    (s : t) :
  (forall k, 0 <= rand k < 1) ->
  let s' := onResize innerWidth innerHeight rand s in
  length (particles s') = 150%nat /\
  Forall (fresh innerWidth innerHeight) (particles s') /\
  canvas_width s' = innerWidth /\ canvas_height s' = innerHeight /\
  mouse s' = mouse s /\
  particles s' = particles (construct innerWidth innerHeight rand).
Proof.
  intros Hr s'. subst s'. unfold onResize, construct.
  cbn [particles canvas_width canvas_height mouse].
  split; [| split; [| repeat split]].
  - unfold createParticles. rewrite length_fmap, length_seq. reflexivity.
  - unfold createParticles. apply Forall_fmap, Forall_forall.
    intros i _. apply createParticle_fresh, Hr.
Qed.

Lemma resize_regenerates_witness :
  length (particles (onResize 800 600 (fun _ => 0.5) sampleState)) = 150%nat /\
  Forall (fresh 800 600) (particles (onResize 800 600 (fun _ => 0.5) sampleState)).
Proof.
  destruct (resize_regenerates 800 600 (fun _ => 0.5) sampleState)
    as (Hlen & Hall & _).
  - intros k. lra.
  - split; [exact Hlen | exact Hall].
Defined.

End RunProofs.

(** ** More on the Bloch sphere icon *)

Section MoreBlochSphereIconProofs.
Import BlochSphereIcon.

(** What the branch for a negative discriminant computes. *)
Lemma handleMouseMove_at_outside (dx dy : R) (s : t) :
  discriminant dx dy < 0 ->
  let len2D := sqrt (dx * dx + dy * dy) in
  let tX := dx / len2D / 0.9 in
  let tZ := - (dy / len2D) in
  let len := sqrt (tX * tX + tZ * tZ) in
  0 < len2D /\ 1 <= len * len <= 100 / 81 /\ 0 < len /\
  handleMouseMove_at dx dy s = Some (set_target s (tX / len) 0 (tZ / len)).
Proof.
  intros HD len2D tX tZ len.
  pose proof (negative_discriminant_nonzero dx dy HD) as Hpos.
  assert (Hl2 : 0 < len2D) by (apply sqrt_lt_R0; exact Hpos).
  assert (Hl2sq : len2D * len2D = dx * dx + dy * dy)
    by (apply sqrt_norm_sqr; lra).
  assert (Hnd : (dx / len2D) * (dx / len2D) + (dy / len2D) * (dy / len2D) = 1).
  { replace (dx / len2D * (dx / len2D) + dy / len2D * (dy / len2D))
      with ((dx * dx + dy * dy) / (len2D * len2D)) by (field; lra).
    rewrite Hl2sq. field. lra. }
  assert (Hbounds : 1 <= tX * tX + tZ * tZ <= 100 / 81).
  { subst tX tZ. revert Hnd.
    generalize (dx / len2D) as u, (dy / len2D) as v. intros u v Hnd.
    split; nra. }
  assert (Hlsq : len * len = tX * tX + tZ * tZ)
    by (apply sqrt_norm_sqr; lra).
  assert (Hlen : 0 < len) by (apply sqrt_lt_R0; lra).
  split; [exact Hl2 |]. split; [lra |]. split; [exact Hlen |].
  unfold handleMouseMove_at.
  destruct (Rge_dec (discriminant dx dy) 0) as [Hge | _]; [lra |].
  cbv zeta. fold len2D.
  destruct (Rgt_dec len2D 0) as [_ | Hn]; [| lra].
  rewrite !fdiv_Some by lra. simpl. fold tX tZ. fold len.
  destruct (Rgt_dec len 0) as [_ | Hn]; [| lra].
  rewrite !fdiv_Some by lra. reflexivity.
Qed.

Lemma target_always_unit_aux (dx dy : R) (s : t) :
  exists s', handleMouseMove_at dx dy s = Some s' /\
    norm2 (targetX s') (targetY s') (targetZ s') = 1.
Proof.
  destruct (Rge_dec (discriminant dx dy) 0) as [HD | HD].
  - rewrite (handleMouseMove_at_inside dx dy s HD). cbv zeta.
    eexists. split; [reflexivity |]. simpl.
    apply (root_on_sphere dx dy (sqrt (discriminant dx dy))).
    + apply sqrt_norm_sqr. lra.
    + left. reflexivity.
  - destruct (handleMouseMove_at_outside dx dy s) as (Hl2 & Hb & Hlen & ->);
      [lra |].
    eexists. split; [reflexivity |]. simpl.
    set (len2D := sqrt (dx * dx + dy * dy)) in *.
    set (tX := dx / len2D / 0.9) in *. set (tZ := - (dy / len2D)) in *.
    assert (Hpos : 0 < tX * tX + tZ * tZ).
    { rewrite <- (sqrt_norm_sqr (tX * tX + tZ * tZ)); nra. }
    destruct (normalize2_unit tX tZ Hpos) as [_ Hunit].
    unfold norm2. lra.
Qed.

Lemma handleMouseMove_at_keeps_vector (dx dy : R) (s s' : t) :
  handleMouseMove_at dx dy s = Some s' ->
  x s' = x s /\ y s' = y s /\ z s' = z s.
Proof.
  destruct (Rge_dec (discriminant dx dy) 0) as [HD | HD].
  - rewrite (handleMouseMove_at_inside dx dy s HD). cbv zeta.
    intros [= <-]. repeat split.
  - destruct (handleMouseMove_at_outside dx dy s) as (_ & _ & _ & ->); [lra |].
    intros [= <-]. repeat split.
Qed.

(** Whatever the offset of the pointer, [handleMouseMove] leaves a target of
    length one to within rounding ([|x*x + y*y + z*z - 1| <= 1e-12]) and
    does not touch the displayed vector. *)
Theorem target_always_unit (dx dy : R) (s : t) :
  exists s', handleMouseMove_at dx dy s = Some s' /\
    Rabs (norm2 (targetX s') (targetY s') (targetZ s') - 1) <= 1e-12 /\
    x s' = x s /\ y s' = y s /\ z s' = z s.
Proof.
  destruct (target_always_unit_aux dx dy s) as (s' & H & Hu).
  exists s'. split; [exact H |]. split.
  - rewrite Hu. apply Rabs_le. lra.
  - apply (handleMouseMove_at_keeps_vector dx dy s s' H).
Qed.

(** Inside the outline the tip goes under the pointer: when the
    discriminant is non-negative, the new target projects onto the offset
    of the pointer to within 1e-9 in each coordinate, and it is on the side
    of the sphere that faces the viewer (its component along the direction
    of projection is not below -1e-9). *)
Theorem target_under_pointer (dx dy : R) (s : t) :
  discriminant dx dy >= 0 ->
  exists s', handleMouseMove_at dx dy s = Some s' /\
    Rabs ((projectOffset (targetX s') (targetY s') (targetZ s')).1 - dx)
    <= 1e-9 /\
    Rabs ((projectOffset (targetX s') (targetY s') (targetZ s')).2 - dy)
    <= 1e-9 /\
    - 1e-9 <= targetY s' - targetX s' / 3 + 0.2 * targetZ s'.
Proof.
  intros HD. rewrite (handleMouseMove_at_inside dx dy s HD). cbv zeta.
  pose proof (sqrt_pos (discriminant dx dy)) as Hs.
  eexists. split; [reflexivity |].
  cbn [targetX targetY targetZ set_target].
  set (sq := sqrt (discriminant dx dy)) in *.
  assert (Hw : (- B dx dy + sq) / (2 * A)
               - (dx - a * ((- B dx dy + sq) / (2 * A))) / b / 3
               + 0.2 * (- dy + c * ((- B dx dy + sq) / (2 * A))) = sq / 2).
  { rewrite A_value, B_value. unfold a, b, c. lra. }
  rewrite Hw, projectOffset_eq. cbn [fst snd].
  split; [| split; [| lra]]; apply Rabs_le; unfold a, b, c; lra.
Qed.

Lemma target_under_pointer_witness :
  exists s', handleMouseMove_at 0 0 init = Some s' /\
    Rabs ((projectOffset (targetX s') (targetY s') (targetZ s')).1 - 0)
    <= 1e-9 /\
    Rabs ((projectOffset (targetX s') (targetY s') (targetZ s')).2 - 0)
    <= 1e-9.
Proof.
  destruct (target_under_pointer 0 0 init) as (s' & H & Hx & Hy & _).
  - unfold discriminant. rewrite A_value, B_value, C_value. lra.
  - exists s'. split; [exact H |]. split; [exact Hx | exact Hy].
Defined.



(** The front-most point: for every vector of unit length (to within
    1e-12) whose offset has a non-negative discriminant, the inverse
    projection returns a vector of unit length with the same projection (to
    within 1e-12 and 1e-9) whose y-component is that of the given vector
    plus [(|w| - w) / A], to within 1e-6, where [w = y - x/3 + 0.2*z]: so
    it is never below the given one by more than 1e-6, within 1e-6 of it on
    the near side, and larger wherever the given vector is on the far side
    by a margin. *)
Theorem target_is_front_most (vx vy vz : R) (s : t) :
  Rabs (norm2 vx vy vz - 1) <= 1e-12 ->
  let dx := vx * 0.9 + vy * 0.3 in
  let dy := - vz + vy * 0.2 in
  let w := vy - vx / 3 + 0.2 * vz in
  discriminant dx dy >= 0 ->
  exists s', handleMouseMove_at dx dy s = Some s' /\
    Rabs ((projectOffset (targetX s') (targetY s') (targetZ s')).1 - dx)
    <= 1e-9 /\
    Rabs ((projectOffset (targetX s') (targetY s') (targetZ s')).2 - dy)
    <= 1e-9 /\
    Rabs (norm2 (targetX s') (targetY s') (targetZ s') - 1) <= 1e-12 /\
    Rabs (targetY s' - (vy + (Rabs w - w) / A)) <= 1e-6 /\
    vy - 1e-6 <= targetY s' /\
    (0 <= w -> targetY s' <= vy + 1e-6) /\
    (w <= - 1e-5 -> vy + 1e-5 < targetY s').
Proof.
  intros Hn dx dy w HD.
  destruct (inverse_of_projection_near vx vy vz s Hn HD) as (k & H & Hk & Hu).
  fold w in Hk.
  eexists. split; [exact H |].
  cbn [targetX targetY targetZ set_target].
  rewrite Hu, projectOffset_eq. cbn [fst snd].
  apply Rabs_le_inv in Hk. rewrite A_value in *.
  split; [apply Rabs_le; unfold dx; lra |].
  split; [apply Rabs_le; unfold dy; lra |].
  split; [apply Rabs_le; lra |].
  split; [apply Rabs_le; lra |].
  unfold Rabs in *. destruct (Rcase_abs w) as [Hneg | Hpos].
  - split; [lra |]. split; intros; lra.
  - split; [lra |]. split; intros; lra.
Qed.

Lemma target_is_front_most_witness :
  exists s', handleMouseMove_at (0 * 0.9 + -1 * 0.3) (- 0 + -1 * 0.2) init
             = Some s' /\
    -1 + 1e-5 < targetY s'.
Proof.
  destruct (target_is_front_most 0 (-1) 0 init)
    as (s' & H & _ & _ & _ & _ & _ & _ & Hlt).
  - apply Rabs_le. unfold norm2. lra.
  - unfold discriminant. rewrite A_value, B_value, C_value. lra.
  - exists s'. split; [exact H |]. apply Hlt. lra.
Defined.

(** The whole handler for a container of positive width and height: the
    radius of the sphere on screen is positive, the offset of the pointer
    is its distance from the centre of the container divided by that
    radius, the target gets unit length (to within 1e-12) and the displayed
    vector is kept. With the pointer on the centre the target is the
    direction of projection [(-1/3, 1, 0.2)] scaled to unit length, to
    within 1e-9: it points at the viewer. *)
Theorem handleMouseMove_needs_size (rect : DOMRect) (e : MouseEvent) (s : t) :
  0 < width rect -> 0 < height rect ->
  let radiusScreen := Rmin ((22 / 96) * width rect) ((22 / 84) * height rect) in
  let dx := (clientX e - (left rect + width rect * 0.5)) / radiusScreen in
  let dy := (clientY e - (top rect + height rect * 0.5)) / radiusScreen in
  0 < radiusScreen /\
  handleMouseMove rect e s = handleMouseMove_at dx dy s /\
  exists s', handleMouseMove rect e s = Some s' /\
    Rabs (norm2 (targetX s') (targetY s') (targetZ s') - 1) <= 1e-12 /\
    x s' = x s /\ y s' = y s /\ z s' = z s /\
    (clientX e = left rect + width rect * 0.5 ->
     clientY e = top rect + height rect * 0.5 ->
     0.93 <= targetY s' <= 0.94 /\
     Rabs (targetX s' + targetY s' / 3) <= 1e-9 /\
     Rabs (targetZ s' - 0.2 * targetY s') <= 1e-9).
Proof.
  intros Hw Hh radiusScreen dx dy.
  assert (Hr : 0 < radiusScreen).
  { subst radiusScreen. unfold Rmin. destruct (Rle_dec _ _); lra. }
  split; [exact Hr |].
  assert (Heq : handleMouseMove rect e s = handleMouseMove_at dx dy s).
  { unfold handleMouseMove, pointerOffset. cbv zeta. fold radiusScreen.
    rewrite !fdiv_Some by lra. reflexivity. }
  split; [exact Heq |]. rewrite Heq.
  destruct (target_always_unit_aux dx dy s) as (s' & H & Hu).
  exists s'. split; [exact H |]. split; [rewrite Hu; apply Rabs_le; lra |].
  destruct (handleMouseMove_at_keeps_vector dx dy s s' H) as (Hx & Hy & Hz).
  do 3 (split; [assumption |]).
  intros Hcx Hcy.
  assert (Hdx : dx = 0) by (unfold dx; rewrite Hcx; unfold Rdiv; lra).
  assert (Hdy : dy = 0) by (unfold dy; rewrite Hcy; unfold Rdiv; lra).
  rewrite Hdx, Hdy in H.
  assert (HD : discriminant 0 0 >= 0)
    by (unfold discriminant; rewrite A_value, B_value, C_value; lra).
  rewrite (handleMouseMove_at_inside 0 0 s HD) in H. cbv zeta in H.
  injection H as <-. simpl.
  pose proof (sqrt_pos (discriminant 0 0)) as Hs0.
  assert (Hsq : sqrt (discriminant 0 0) * sqrt (discriminant 0 0) = 1036 / 225).
  { rewrite sqrt_norm_sqr by lra.
    unfold discriminant. rewrite A_value, B_value, C_value. lra. }
  set (sq := sqrt (discriminant 0 0)) in *.
  rewrite A_value, B_value. unfold a, b, c.
  split; [split; nra |].
  split; apply Rabs_le; lra.
Qed.

Lemma handleMouseMove_needs_size_witness :
  exists s', handleMouseMove (Build_DOMRect 0 0 96 84) (Build_MouseEvent 48 42)
               init = Some s' /\
    0.93 <= targetY s' <= 0.94.
Proof.
  destruct (handleMouseMove_needs_size (Build_DOMRect 0 0 96 84)
              (Build_MouseEvent 48 42) init)
    as (_ & _ & s' & H & _ & _ & _ & _ & Hc).
  - simpl. lra.
  - simpl. lra.
  - exists s'. split; [exact H |].
    apply Hc; simpl; lra.
Defined.

(** The angle inequality behind the easing: a combination of two vectors
    with positive weights is as close in direction to the second as the
    first is. Here [p] and [q] are the lengths of the vectors, [c] their
    inner product and [L] the length of the combination. *)
Lemma step_gain_near (p q c L : R) :
  0 < p -> 0 <= q -> c * c <= (p * p) * (q * q) -> 0 < L ->
  L * L = 0.8464 * (p * p) + 0.1472 * c + 0.0064 * (q * q) ->
  c * L <= p * (0.92 * c + 0.08 * (q * q)).
Proof.
  intros Hp Hq Hcs HL Hsq.
  assert (Hpq : 0 <= p * q) by nra.
  destruct (Rle_dec 0 c) as [Hc | Hc].
  - assert (Hcpq : c <= p * q) by nra.
    assert (HLle : L <= 0.92 * p + 0.08 * q).
    { destruct (Rle_dec L (0.92 * p + 0.08 * q)) as [Hok | Hbad]; [exact Hok |].
      exfalso. assert (0.92 * p + 0.08 * q < L) by lra.
      assert (0 <= 0.92 * p + 0.08 * q) by nra.
      assert ((0.92 * p + 0.08 * q) * (0.92 * p + 0.08 * q) < L * L) by nra.
      nra. }
    assert (c * L <= c * (0.92 * p + 0.08 * q)) by nra.
    assert (0 <= 0.08 * q * (p * q - c)) by nra.
    nra.
  - assert (Hc' : c < 0) by lra.
    set (m := 0.92 * c + 0.08 * (q * q)).
    destruct (Rle_dec 0 m) as [Hm | Hm]; [nra |].
    assert (Hm' : m < 0) by lra.
    assert (Hid : (c * L) * (c * L) - (p * m) * (p * m)
                  = 0.08 * (c * c - p * p * (q * q))
                    * (2 * 0.92 * c + 0.08 * (q * q))).
    { replace ((c * L) * (c * L)) with (c * c * (L * L)) by ring.
      rewrite Hsq. subst m. lra. }
    assert (H2 : 2 * 0.92 * c + 0.08 * (q * q) < 0) by (subst m; nra).
    assert (Hge : (p * m) * (p * m) <= (c * L) * (c * L)) by nra.
    destruct (Rle_dec (c * L) (p * m)) as [Hok | Hbad]; [exact Hok |].
    exfalso. assert (p * m < c * L) by lra.
    assert (c * L < 0) by nra.
    assert (p * m < 0) by nra.
    nra.
Qed.

(** The inequality of Cauchy and Schwarz for the displayed vector and the
    target. *)
Lemma alignment_cauchy (s : t) :
  alignment s * alignment s
  <= norm2 (x s) (y s) (z s) * norm2 (targetX s) (targetY s) (targetZ s).
Proof.
  unfold alignment, norm2.
  pose proof (Rle_0_sqr (x s * targetY s - y s * targetX s)) as H1.
  pose proof (Rle_0_sqr (x s * targetZ s - z s * targetX s)) as H2.
  pose proof (Rle_0_sqr (y s * targetZ s - z s * targetY s)) as H3.
  unfold Rsqr in *. lra.
Qed.

(** One frame in full, for a displayed vector and a target of unit length
    to within 1e-12: the new vector has unit length, the target is kept,
    and the inner product with the target does not drop by more than 1e-11;
    once it is non-negative it stays so and its distance to 1 shrinks by
    the factor 0.92, up to 1e-11. *)
Lemma animate_step_near (s : t) :
  Rabs (norm2 (x s) (y s) (z s) - 1) <= 1e-12 ->
  Rabs (norm2 (targetX s) (targetY s) (targetZ s) - 1) <= 1e-12 ->
  exists s' pos, animate s = Some (s', pos) /\
    norm2 (x s') (y s') (z s') = 1 /\
    targetX s' = targetX s /\ targetY s' = targetY s /\
    targetZ s' = targetZ s /\
    alignment s - 1e-11 <= alignment s' /\
    (0 <= alignment s ->
     0 <= alignment s' /\
     1 - alignment s' <= 0.92 * (1 - alignment s) + 1e-11).
Proof.
  intros Hv Ht.
  apply Rabs_le_inv in Hv. apply Rabs_le_inv in Ht.
  pose proof (lerp_norm2 s) as HN. cbv zeta in HN.
  pose proof (Rabs_le_inv _ _ (alignment_bounds s)) as Hc.
  pose proof (alignment_cauchy s) as Hcs.
  set (x1 := x s + (targetX s - x s) * 0.08) in *.
  set (y1 := y s + (targetY s - y s) * 0.08) in *.
  set (z1 := z s + (targetZ s - z s) * 0.08) in *.
  set (Nx := norm2 (x s) (y s) (z s)) in *.
  set (Nt := norm2 (targetX s) (targetY s) (targetZ s)) in *.
  set (cc := alignment s) in *.
  unfold norm2 in HN.
  assert (Hpos : 0 < x1 * x1 + y1 * y1 + z1 * z1) by lra.
  destruct (normalize3_unit x1 y1 z1 Hpos) as [Hlen Hunit].
  set (L := sqrt (x1 * x1 + y1 * y1 + z1 * z1)) in *.
  assert (HLsq : L * L = 0.8464 * Nx + 0.1472 * cc + 0.0064 * Nt)
    by (rewrite <- HN; apply sqrt_norm_sqr; lra).
  assert (Hm : x1 * targetX s + y1 * targetY s + z1 * targetZ s
               = 0.92 * cc + 0.08 * Nt).
  { subst x1 y1 z1 cc Nt. unfold alignment, norm2. lra. }
  assert (Ha : (x1 / L) * targetX s + (y1 / L) * targetY s + (z1 / L) * targetZ s
               = (0.92 * cc + 0.08 * Nt) / L).
  { rewrite <- Hm. field. lra. }
  unfold animate. cbv zeta. fold x1 y1 z1. fold L.
  destruct (Rgt_dec L 0) as [_ | Hn]; [| lra].
  rewrite !fdiv_Some by lra. simpl.
  eexists _, _. split; [reflexivity |]. simpl.
  split; [exact Hunit |]. do 3 (split; [reflexivity |]).
  unfold alignment. cbn [x y z targetX targetY targetZ set_vector].
  rewrite Ha.
  set (m := 0.92 * cc + 0.08 * Nt) in *.
  assert (HiL : 0 < / L) by (apply Rinv_0_lt_compat; exact Hlen).
  assert (HLiL : L * / L = 1) by (field; lra).
  split.
  - (* the inner product does not drop *)
    assert (HNx0 : 0 <= Nx) by lra.
    pose proof (sqrt_pos Nx) as Hp0.
    assert (Hpsq : sqrt Nx * sqrt Nx = Nx) by (apply sqrt_norm_sqr; lra).
    pose proof (sqrt_pos Nt) as Hq0.
    assert (Hqsq : sqrt Nt * sqrt Nt = Nt) by (apply sqrt_norm_sqr; lra).
    set (p := sqrt Nx) in *. set (q := sqrt Nt) in *.
    assert (Hp : 0 < p) by nra.
    assert (Hp1 : 1 - 1e-12 <= p <= 1 + 1e-12) by (split; nra).
    assert (Hgain : cc * L <= p * m).
    { subst m. rewrite <- Hqsq.
      apply (step_gain_near p q cc L Hp Hq0);
        [rewrite Hpsq, Hqsq; exact Hcs | exact Hlen |
         rewrite Hpsq, Hqsq; exact HLsq]. }
    unfold Rdiv.
    assert (Hdiv : cc * / p <= m * / L).
    { assert (Hip : 0 < / p) by (apply Rinv_0_lt_compat; exact Hp).
      assert (HpiP : p * / p = 1) by (field; lra).
      assert (H1 : cc * L * (/ p * / L) <= p * m * (/ p * / L)).
      { apply Rmult_le_compat_r; [| exact Hgain].
        apply Rlt_le, Rmult_lt_0_compat; assumption. }
      replace (cc * L * (/ p * / L)) with (cc * / p * (L * / L)) in H1 by ring.
      replace (p * m * (/ p * / L)) with (m * / L * (p * / p)) in H1 by ring.
      rewrite HLiL, HpiP in H1. lra. }
    assert (Hcp : cc - 1e-11 <= cc * / p).
    { assert (Hip : 0 < / p) by (apply Rinv_0_lt_compat; exact Hp).
      assert (HpiP : p * / p = 1) by (field; lra).
      assert (Hip1 : 1 - 2e-12 <= / p <= 1 + 2e-12) by (split; nra).
      destruct (Rle_dec 0 cc); nra. }
    lra.
  - (* the contraction *)
    intros Hc0.
    assert (HL1 : L <= 1 + 1e-12).
    { destruct (Rle_dec L (1 + 1e-12)) as [Hok | Hbad]; [exact Hok |].
      exfalso. assert (1 + 1e-12 < L) by lra. nra. }
    assert (Hm0 : 0 <= m) by (subst m; lra).
    assert (HiL1 : 1 - 1e-12 <= / L) by nra.
    unfold Rdiv.
    assert (Hmm : m * (1 - 1e-12) <= m * / L)
      by (apply Rmult_le_compat_l; assumption).
    assert (Hm2 : m <= 1 + 1e-11) by (subst m; lra).
    split; [apply Rmult_le_pos; lra |].
    subst m. nra.
Qed.

(** Every frame turns the displayed vector towards the target: for vectors
    of unit length (to within 1e-12) the inner product with the target
    does not decrease by more than rounding (1e-11), and once it is
    non-negative its distance to 1 shrinks by the factor 0.92 at least, up
    to rounding (1e-11). *)
Theorem animate_approaches_target (s : t) :
  Rabs (norm2 (x s) (y s) (z s) - 1) <= 1e-12 ->
  Rabs (norm2 (targetX s) (targetY s) (targetZ s) - 1) <= 1e-12 ->
  exists s' pos, animate s = Some (s', pos) /\
    alignment s - 1e-11 <= alignment s' /\
    (0 <= alignment s ->
     1 - alignment s' <= 0.92 * (1 - alignment s) + 1e-11).
Proof.
  intros Hv Ht.
  destruct (animate_step_near s Hv Ht)
    as (s' & pos & H & _ & _ & _ & _ & Hge & Hcontr).
  exists s', pos. split; [exact H |].
  split; [exact Hge |]. intros H0. apply Hcontr, H0.
Qed.

Lemma animate_approaches_target_witness :
  exists s' pos, animate (mk 1 0 0 0 0 1) = Some (s', pos) /\
    1 - alignment s' <= 0.92 * (1 - 0) + 1e-11.
Proof.
  destruct (animate_approaches_target (mk 1 0 0 0 0 1))
    as (s' & pos & H & _ & Hc).
  - apply Rabs_le. unfold norm2. simpl. lra.
  - apply Rabs_le. unfold norm2. simpl. lra.
  - exists s', pos. split; [exact H |].
    unfold alignment in Hc at 1 3. simpl in Hc.
    replace (1 * 0 + 0 * 0 + 0 * 1) with 0 in Hc by lra.
    apply Hc. lra.
Defined.

(** The bound that [n] frames keep, with the slack that the frames add up
    to. *)
Lemma frames_converge_aux (n : nat) (s : t) :
  Rabs (norm2 (x s) (y s) (z s) - 1) <= 1e-12 ->
  Rabs (norm2 (targetX s) (targetY s) (targetZ s) - 1) <= 1e-12 ->
  0 <= alignment s ->
  exists s', frames n s = Some s' /\
    Rabs (norm2 (x s') (y s') (z s') - 1) <= 1e-12 /\
    targetX s' = targetX s /\ targetY s' = targetY s /\
    targetZ s' = targetZ s /\
    0 <= alignment s' /\
    1 - alignment s'
    <= 0.92 ^ n * (1 - alignment s) + 1.25e-10 * (1 - 0.92 ^ n).
Proof.
  revert s. induction n as [| n IH]; intros s Hv Ht Hc.
  - exists s. simpl. repeat split; try reflexivity; try assumption; lra.
  - destruct (animate_step_near s Hv Ht)
      as (s1 & pos & H & Hv1 & Hx & Hy & Hz & _ & Hcontr).
    destruct (Hcontr Hc) as [Hnn Hcon].
    assert (Hv1' : Rabs (norm2 (x s1) (y s1) (z s1) - 1) <= 1e-12)
      by (rewrite Hv1; apply Rabs_le; lra).
    assert (Ht1 : Rabs (norm2 (targetX s1) (targetY s1) (targetZ s1) - 1)
                  <= 1e-12)
      by (rewrite Hx, Hy, Hz; exact Ht).
    destruct (IH s1 Hv1' Ht1 Hnn)
      as (s' & Hrun & Hv' & Hx' & Hy' & Hz' & Hnn' & Hcon').
    exists s'. simpl. rewrite H. simpl.
    split; [exact Hrun |]. split; [exact Hv' |].
    do 3 (split; [congruence |]). split; [exact Hnn' |].
    assert (Hp : 0 <= 0.92 ^ n) by (apply pow_le; lra).
    assert (0.92 ^ n * (1 - alignment s1)
            <= 0.92 ^ n * (0.92 * (1 - alignment s) + 1e-11))
      by (apply Rmult_le_compat_l; lra).
    lra.
Qed.

(** With the pointer at rest the displayed vector converges to the target:
    for vectors of unit length (to within 1e-12) with a non-negative inner
    product [c], [n] frames give a vector of unit length (to within 1e-12)
    whose inner product with the unchanged target is at least
    [1 - 0.92^n * (1 - c)] and at least [c], both up to rounding (1e-9). *)
Theorem frames_converge (n : nat) (s : t) :
  Rabs (norm2 (x s) (y s) (z s) - 1) <= 1e-12 ->
  Rabs (norm2 (targetX s) (targetY s) (targetZ s) - 1) <= 1e-12 ->
  0 <= alignment s ->
  exists s', frames n s = Some s' /\
    Rabs (norm2 (x s') (y s') (z s') - 1) <= 1e-12 /\
    targetX s' = targetX s /\ targetY s' = targetY s /\
    targetZ s' = targetZ s /\
    alignment s - 1e-9 <= alignment s' /\
    1 - alignment s' <= 0.92 ^ n * (1 - alignment s) + 1e-9.
Proof.
  intros Hv Ht Hc.
  destruct (frames_converge_aux n s Hv Ht Hc)
    as (s' & Hrun & Hv' & Hx & Hy & Hz & _ & Hcon).
  exists s'. split; [exact Hrun |]. split; [exact Hv' |].
  do 3 (split; [assumption |]).
  pose proof (Rabs_le_inv _ _ (alignment_bounds s)) as Hb.
  apply Rabs_le_inv in Hv. apply Rabs_le_inv in Ht.
  assert (Hp : 0 <= 0.92 ^ n <= 1).
  { split; [apply pow_le; lra |].
    rewrite <- (pow1 n). apply pow_incr. lra. }
  split; nra.
Qed.

Lemma frames_converge_witness :
  exists s', frames 10 (mk 1 0 0 0 0 1) = Some s' /\
    1 - alignment s' <= 0.92 ^ 10 * (1 - alignment (mk 1 0 0 0 0 1)) + 1e-9.
Proof.
  destruct (frames_converge 10 (mk 1 0 0 0 0 1))
    as (s' & H & _ & _ & _ & _ & _ & Hc).
  - apply Rabs_le. unfold norm2. simpl. lra.
  - apply Rabs_le. unfold norm2. simpl. lra.
  - unfold alignment. simpl. lra.
  - exists s'. split; [exact H | exact Hc].
Defined.

(** A frame never fails, does not touch the target and draws the tip at
    the projection of the new vector. Whatever the lengths before it (the
    constructor starts from a vector of squared length 0.999698), it leaves
    a displayed vector of unit length to within rounding
    ([|x*x + y*y + z*z - 1| <= 1e-12]) as long as the squared length of the
    interpolated vector is between 1e-12 and 1e12; the zero vector is
    kept. *)
Theorem animate_unit_or_zero (s : t) :
  let x1 := x s + (targetX s - x s) * 0.08 in
  let y1 := y s + (targetY s - y s) * 0.08 in
  let z1 := z s + (targetZ s - z s) * 0.08 in
  exists s' pos, animate s = Some (s', pos) /\
    targetX s' = targetX s /\ targetY s' = targetY s /\
    targetZ s' = targetZ s /\
    pos = cartesianToScreen (x s') (y s') (z s') 22 /\
    (1e-12 <= norm2 x1 y1 z1 <= 1e12 ->
     Rabs (norm2 (x s') (y s') (z s') - 1) <= 1e-12) /\
    (x1 = 0 /\ y1 = 0 /\ z1 = 0 -> x s' = 0 /\ y s' = 0 /\ z s' = 0).
Proof.
  intros x1 y1 z1. unfold animate. cbv zeta. fold x1 y1 z1.
  assert (Hnn : 0 <= x1 * x1 + y1 * y1 + z1 * z1) by nra.
  destruct (Rgt_dec (sqrt (x1 * x1 + y1 * y1 + z1 * z1)) 0) as [Hlen | Hlen].
  - rewrite !fdiv_Some by lra. simpl.
    eexists _, _. split; [reflexivity |]. simpl.
    do 4 (split; [reflexivity |]).
    assert (Hpos : 0 < x1 * x1 + y1 * y1 + z1 * z1).
    { destruct (Req_dec (x1 * x1 + y1 * y1 + z1 * z1) 0) as [Hz | Hnz];
        [| lra].
      rewrite Hz, sqrt_0 in Hlen. lra. }
    split.
    + intros _. unfold norm2.
      destruct (normalize3_unit x1 y1 z1 Hpos) as [_ ->].
      apply Rabs_le. lra.
    + intros (Hx & Hy & Hz). rewrite Hx, Hy, Hz in Hpos. lra.
  - simpl. eexists _, _. split; [reflexivity |]. simpl.
    do 4 (split; [reflexivity |]).
    assert (Hz : x1 * x1 + y1 * y1 + z1 * z1 = 0).
    { destruct (Req_dec (x1 * x1 + y1 * y1 + z1 * z1) 0) as [Hz | Hnz];
        [exact Hz |].
      exfalso. apply Hlen. apply sqrt_lt_R0. lra. }
    split.
    + unfold norm2. intros Hne. lra.
    + intros H. exact H.
Qed.

Lemma animate_unit_or_zero_witness :
  exists s' pos, animate init = Some (s', pos) /\
    Rabs (norm2 (x s') (y s') (z s') - 1) <= 1e-12.
Proof.
  destruct (animate_unit_or_zero init) as (s' & pos & H & _ & _ & _ & _ & Hu & _).
  exists s', pos. split; [exact H |]. apply Hu.
  unfold norm2, init. simpl. lra.
Defined.

(** The tip of a unit vector is drawn within 1.031 radii (22.682 units of
    the drawing) of the centre [(30, 30)]; that is slightly more than the
    radius 22 of the outline, which the tip can cross. *)
Theorem tip_near_outline (vx vy vz : R) :
  norm2 vx vy vz = 1 ->
  let pos := cartesianToScreen vx vy vz 22 in
  sqrt ((pos.1 - 30) * (pos.1 - 30) + (pos.2 - 30) * (pos.2 - 30))
  <= 22 * 1.031.
Proof.
  intros Hn pos.
  pose proof (discriminant_of_projection vx vy vz Hn) as HD.
  cbv zeta in HD. rewrite projectOffset_eq in HD. simpl in HD.
  set (dx := vx * 0.9 + vy * 0.3) in *. set (dy := - vz + vy * 0.2) in *.
  assert (Hd : sqrt (dx * dx + dy * dy) <= 1.031).
  { destruct (Rle_dec (sqrt (dx * dx + dy * dy)) 1.031) as [Hle | Hgt];
      [exact Hle | exfalso].
    assert (Hneg : discriminant dx dy < 0)
      by (apply far_offset_discriminant; lra).
    rewrite HD in Hneg.
    pose proof (Rle_0_sqr (2 * (vy - vx / 3 + 0.2 * vz))) as Hsq.
    unfold Rsqr in Hsq. lra. }
  subst pos. unfold cartesianToScreen. simpl.
  replace ((30 + vx * 22 * 0.9 + vy * 22 * 0.3 - 30)
           * (30 + vx * 22 * 0.9 + vy * 22 * 0.3 - 30)
           + (30 - vz * 22 + vy * 22 * 0.2 - 30)
             * (30 - vz * 22 + vy * 22 * 0.2 - 30))
    with ((22 * 22) * (dx * dx + dy * dy)) by (subst dx dy; ring).
  rewrite sqrt_mult by nra. rewrite sqrt_sqr_nonneg by lra.
  apply Rmult_le_compat_l; lra.
Qed.

Lemma tip_near_outline_witness :
  let pos := cartesianToScreen 0 (7 / 25) (- (24 / 25)) 22 in
  22 < sqrt ((pos.1 - 30) * (pos.1 - 30) + (pos.2 - 30) * (pos.2 - 30))
  <= 22 * 1.031.
Proof.
  split.
  - unfold cartesianToScreen. simpl.
    replace 22 with (sqrt (22 * 22)) at 1 by (apply sqrt_sqr_nonneg; lra).
    apply sqrt_lt_1_alt. lra.
  - apply (tip_near_outline 0 (7 / 25) (- (24 / 25))). unfold norm2. lra.
Defined.

End MoreBlochSphereIconProofs.

(** ** The mobile navigation *)

Section MobileNavProofs.
Import MobileNav.

Lemma click_sync (c : Click) (s : t) :
  navLinks_active s = toggle_active s ->
  navLinks_active (click c s) = toggle_active (click c s).
Proof. intros H. destruct c; simpl; [rewrite H |]; reflexivity. Qed.

Lemma toggles_parity (n : nat) (b : bool) :
  clicks (repeat ClickToggle n) (mk b b)
  = mk (xorb b (Nat.odd n)) (xorb b (Nat.odd n)).
Proof.
  revert b. induction n as [| n IH]; intros b.
  - simpl. rewrite xorb_false_r. reflexivity.
  - change (clicks (repeat ClickToggle (S n)) (mk b b))
      with (clicks (repeat ClickToggle n) (mk (negb b) (negb b))).
    rewrite IH, Nat.odd_succ, <- Nat.negb_odd.
    destruct b, (Nat.odd n); reflexivity.
Qed.

(** The menu and its button stay in step: if the class [active] is on both
    or on neither, it is so after any sequence of clicks on the button and
    on the links; after a click on a link the menu is closed, and from a
    closed menu [n] clicks on the button leave it open exactly when [n] is
    odd. *)
Theorem menu_in_step (cs : list Click) (s : t) :
  navLinks_active s = toggle_active s ->
  navLinks_active (clicks cs s) = toggle_active (clicks cs s) /\
  clicks (cs ++ [ClickLink]) s = mk false false /\
  (forall n, clicks (repeat ClickToggle n) (mk false false)
             = mk (Nat.odd n) (Nat.odd n)).
Proof.
  intros H. split; [| split].
  - revert s H. induction cs as [| c cs IH]; intros s H; [exact H |].
    apply IH, click_sync, H.
  - unfold clicks. rewrite foldl_app. reflexivity.
  - intros n. rewrite toggles_parity. reflexivity.
Qed.

Lemma menu_in_step_witness :
  clicks [ClickToggle; ClickToggle; ClickToggle] (mk false false)
  = mk true true.
Proof.
  destruct (menu_in_step [] (mk false false) eq_refl) as (_ & _ & H).
  exact (H 3%nat).
Defined.

End MobileNavProofs.

(** ** The author line of a publication *)

Section PublicationsProofs.
Import String Ascii Publications.
#[local] Open Scope string_scope.

Lemma split_nonempty (sep : ascii) (s : string) : split sep s <> [].
Proof.
  destruct s as [| ch s]; simpl; [discriminate |].
  destruct (Ascii.eqb ch sep); [discriminate |].
  destruct (split sep s); discriminate.
Qed.

(** A name without a comma, followed by a comma, is the first piece. *)
Lemma split_first (name rest : string) :
  commaFree name = true ->
  split "," (name ++ String "," rest) = name :: split "," rest.
Proof.
  induction name as [| ch name IH]; intros Hfree; simpl in *.
  - reflexivity.
  - apply andb_prop in Hfree as [Hch Hfree].
    apply negb_true_iff in Hch. rewrite Hch, (IH Hfree). reflexivity.
Qed.

Lemma split_single (name : string) :
  commaFree name = true -> split "," name = [name].
Proof.
  induction name as [| ch name IH]; intros Hfree; simpl in *.
  - reflexivity.
  - apply andb_prop in Hfree as [Hch Hfree].
    apply negb_true_iff in Hch. rewrite Hch, (IH Hfree). reflexivity.
Qed.

Lemma split_join (names : list string) :
  names <> [] -> Forall (fun n => commaFree n = true) names ->
  split "," (concat "," names) = names.
Proof.
  induction names as [| name names IH]; intros Hne Hall; [contradiction |].
  apply Forall_cons in Hall as [Hname Hall].
  destruct names as [| name' names'].
  - simpl. apply split_single, Hname.
  - change (concat "," (name :: name' :: names'))
      with (name ++ String "," (concat "," (name' :: names'))).
    rewrite (split_first _ _ Hname), IH; [reflexivity | discriminate | exact Hall].
Qed.

(** Every name of the author line is treated on its own: for names without
    a comma, the line made of the names joined by commas comes back as the
    names, each trimmed, and wrapped in the [author-self] span exactly when
    it contains [gibbs] in some letter case, joined by a comma and a space,
    in the same order. *)
Theorem highlightAuthor_by_name (names : list string) :
  Forall (fun n => commaFree n = true) names ->
  highlightAuthor (concat "," names) = concat ", " (markAuthor <$> names).
Proof.
  intros Hall. unfold highlightAuthor.
  destruct names as [| name names]; [reflexivity |].
  rewrite split_join; [reflexivity | discriminate | exact Hall].
Qed.

Lemma highlightAuthor_by_name_witness :
  highlightAuthor "Y Chai, J Gibbs, VR Pascuzzi"
  = "Y Chai, " ++ authorSelf "J Gibbs" ++ ", VR Pascuzzi".
Proof.
  exact (highlightAuthor_by_name ["Y Chai"; " J Gibbs"; " VR Pascuzzi"]
           ltac:(repeat constructor)).
Defined.

End PublicationsProofs.

(** ** Where rounding shows *)

Section Binary64Proofs.
Import PrimFloat.
#[local] Open Scope float_scope.
#[local] Set Warnings "-inexact-float".

(** In binary64 the clamp of the velocity [(2, 10)] (speed 10.198) gives
    [(1.9611613513818404, 9.8058067569092024)], whose speed the program
    computes as 10.000000000000002: above [maxVelocity], by one unit in the
    last place. *)
Lemma clamp_exceeds_max_binary64 :
  let p' := Binary64.updateParticle 800 600 Binary64.noMouse 0.5 0.5
              Binary64.fastParticle in
  Binary64.vx p' = 1.9611613513818404 /\
  Binary64.vy p' = 9.8058067569092024 /\
  Binary64.speed p' = 10.000000000000002 /\
  Binary64.gtb (Binary64.speed p') Binary64.maxVelocity = true /\
  leb (Binary64.speed p') (Binary64.maxVelocity * (1 + 1e-12)) = true.
Proof. vm_compute. repeat split; reflexivity. Qed.

(** In binary64 one frame from the vector [(1, 0, 0)] towards the target
    [(0, 0, 1)] leaves a vector for which the program computes
    [x*x + y*y + z*z] as 1.0000000000000002, not 1. *)
Lemma animate_norm_not_one_binary64 :
  let s' := Binary64.animate Binary64.quarterTurn in
  Binary64.norm2 s' = 1.0000000000000002 /\
  eqb (Binary64.norm2 s') 1 = false /\
  leb (abs (Binary64.norm2 s' - 1)) 1e-12 = true.
Proof. vm_compute. repeat split; reflexivity. Qed.

(** In binary64 the vector
    [(0.7992124927304659, 0.3623177212302058, -0.47956778493358565)], of
    computed squared length 1 and with a non-negative component along the
    direction of projection, projects to an offset whose computed
    discriminant is negative: [handleMouseMove] takes the rim branch and
    the target has [y = 0]. *)
Lemma silhouette_takes_rim_binary64 :
  let vx := 0.7992124927304659 in
  let vy := 0.3623177212302058 in
  let vz := -0.47956778493358565 in
  let d := Binary64.offsetOf vx vy vz in
  let s' := Binary64.handleMouseMove_at (fst d) (snd d) Binary64.init in
  vx * vx + vy * vy + vz * vz = 1 /\
  Binary64.geb (Binary64.facing vx vy vz) 0 = true /\
  Binary64.discriminant (fst d) (snd d) = -4.4408920985006262e-16 /\
  Binary64.targetX s' = 0.85747635828637425 /\
  Binary64.targetY s' = 0 /\
  Binary64.targetZ s' = -0.51452336679682253.
Proof. vm_compute. repeat split; reflexivity. Qed.

(** In binary64 the unit vector [(0, 0.28, -0.96)] comes back from its
    offset to within 1e-6, not exactly. *)
Lemma roundtrip_rounds_binary64 :
  let d := Binary64.offsetOf 0 0.28 (-0.96) in
  let s' := Binary64.handleMouseMove_at (fst d) (snd d) Binary64.init in
  Binary64.geb (Binary64.discriminant (fst d) (snd d)) 0 = true /\
  Binary64.targetX s' = 1.0793834961633466e-16 /\
  Binary64.targetY s' = 0.27999999999999969 /\
  Binary64.targetZ s' = -0.96000000000000008 /\
  leb (abs (Binary64.targetX s' - 0)) 1e-6 = true /\
  leb (abs (Binary64.targetY s' - 0.28)) 1e-6 = true /\
  leb (abs (Binary64.targetZ s' - -0.96)) 1e-6 = true.
Proof. vm_compute. repeat split; reflexivity. Qed.

(** In binary64 the largest value of [Math.random()], [1 - 2^-52], gives a
    particle the radius 4 itself. *)
Lemma radius_reaches_max_binary64 :
  let u := 1 - 0x1p-52 in
  ltb u 1 = true /\ Binary64.createRadius u = 4.
Proof. vm_compute. split; reflexivity. Qed.

(** In binary64 a sine of -1 gives the pulse 0.39999999999999997 and the
    opacity 0.67999999999999994, below 0.4 and 0.68 in the last place, and a
    particle of base radius 3 is drawn with a radius below [0.4 * 3] as the
    program computes it. *)
Lemma pulse_below_bound_binary64 :
  Binary64.pulse (-1) = 0.39999999999999997 /\
  Binary64.opacity (-1) = 0.67999999999999994 /\
  ltb (Binary64.opacity (-1)) 0.68 = true /\
  ltb (3 * Binary64.pulse (-1)) (0.4 * 3) = true /\
  leb (0.68 * (1 - 1e-12)) (Binary64.opacity (-1)) = true /\
  leb (0.4 * (1 - 1e-12) * 3) (3 * Binary64.pulse (-1)) = true.
Proof. vm_compute. repeat split; reflexivity. Qed.

End Binary64Proofs.
